(** * retryExchange: retry with backoff for failed operations

    A shallow embedding of [exchanges/retry/src/retryExchange.ts].

    The exchange is a reactive pipeline.  It is embedded as a transition
    system: the state holds the retries that wait on their [delay] timer,
    the events are the three things that can happen to the pipeline (an
    operation arrives on [ops$], the executor pushes a result, a timer
    fires) and every transition returns the actions it performs, in the
    order the code performs them.

    The combinators come from the wonka library and are embedded by what
    they do here: [share] gives every subscriber of [ops$] each operation,
    [merge] feeds [forward] with the operations of [ops$] and with the
    released retries, [mergeMap] keeps one inner source per failed
    operation, [delay] holds the value of that source on a timer and
    [takeUntil] ends the source, dropping the held value, as soon as its
    notifier [teardown$] pushes.

    Numbers.  Counters ([retryCount], [maxNumberAttempts]) are integers
    ([Z]).  In the transition system durations and the random draw are
    exact rationals ([Q]); the module [Binary64] gives the backoff
    scheduler in the arithmetic the code runs in, IEEE 754 doubles, and
    the range of the factor and the scaling rule are stated there.  The
    JavaScript fallback [a || b] takes [b] when [a] is [undefined], [0] or
    [false]. *)

From Stdlib Require Import ZArith QArith Bool List String Lia Lqa.
From Stdlib Require Import Floats.SpecFloat.
Import ListNotations.

Local Open Scope Q_scope.

(** ** JavaScript fallback [a || b] *)

Module Js.

(** [a || b] at the types the options have; [None] is [undefined]. *)

Definition orZ (a : option Z) (b : Z) : Z :=
  match a with
  | Some n => if (n =? 0)%Z then b else n
  | None => b
  end.

Definition orQ (a : option Q) (b : Q) : Q :=
  match a with
  | Some q => if Qeq_bool q 0 then b else q
  | None => b
  end.

Definition orB (a : option bool) (b : bool) : bool :=
  match a with
  | Some true => true
  | Some false => b
  | None => b
  end.

Definition orF {A B : Type} (a : option (A -> B)) (b : A -> B) : A -> B :=
  match a with
  | Some f => f
  | None => b
  end.

(** [x < y] on numbers. *)
Definition ltQ (x y : Q) : bool := negb (Qle_bool y x).

End Js.

(** ** The backoff scheduler in IEEE 754 doubles

    A double is a [spec_float] of precision 53 and maximal exponent 1024,
    with the operations of the specification of binary64 arithmetic:
    [S754_finite s m e] is [(-1)^s * m * 2^e]. *)

Module Binary64.

Local Open Scope Z_scope.

Definition prec : Z := 53.
Definition emax : Z := 1024.

(** A well-formed double. *)
Definition valid (x : spec_float) : bool := valid_binary prec emax x.

Definition add : spec_float -> spec_float -> spec_float := SFadd prec emax.
Definition mul : spec_float -> spec_float -> spec_float := SFmul prec emax.
Definition ltb : spec_float -> spec_float -> bool := SFltb.
Definition leb : spec_float -> spec_float -> bool := SFleb.

(** The doubles [0], [1], [1.5], [2.5], [1000] and [15000]. *)
Definition zero : spec_float := S754_zero false.
Definition one : spec_float := S754_finite false 4503599627370496 (-52).
Definition onePointFive : spec_float :=
  S754_finite false 6755399441055744 (-52).
Definition twoPointFive : spec_float :=
  S754_finite false 5629499534213120 (-51).
Definition thousand : spec_float :=
  S754_finite false 8796093022208000 (-43).
Definition fifteenThousand : spec_float :=
  S754_finite false 8246337208320000 (-39).

(** [a || b] on numbers: [0], [-0] and [NaN] are falsy. *)
Definition falsy (x : spec_float) : bool :=
  match x with
  | S754_zero _ | S754_nan => true
  | _ => false
  end.

Definition orD (a : option spec_float) (b : spec_float) : spec_float :=
  match a with
  | Some x => if falsy x then b else x
  | None => b
  end.

Definition MIN_DELAY (initialDelayMs : option spec_float) : spec_float :=
  orD initialDelayMs thousand.

Definition MAX_DELAY (maxDelayMs : option spec_float) : spec_float :=
  orD maxDelayMs fifteenThousand.

Definition baseDelay (initialDelayMs retryDelay : option spec_float)
  : spec_float :=
  orD retryDelay (MIN_DELAY initialDelayMs).

(** [Math.random() + 1.5] *)
Definition backoffFactor (r : spec_float) : spec_float := add r onePointFive.

Definition delayAmount (randomDelay : option bool)
           (initialDelayMs maxDelayMs retryDelay : option spec_float)
           (r : spec_float) : spec_float :=
  let d := baseDelay initialDelayMs retryDelay in
  if Js.orB randomDelay true &&
     ltb (mul d (backoffFactor r)) (MAX_DELAY maxDelayMs)
  then mul d (backoffFactor r)
  else d.

(** The draw [1 - 2^-52], the double [0.9999999999999998]; the draw
    [0.5]; the delays [100], [200] and [600]. *)
Definition lastDraw : spec_float :=
  S754_finite false 9007199254740990 (-53).
Definition halfDraw : spec_float :=
  S754_finite false 4503599627370496 (-53).
Definition hundred : spec_float :=
  S754_finite false 7036874417766400 (-46).
Definition twoHundred : spec_float :=
  S754_finite false 7036874417766400 (-45).
Definition sixHundred : spec_float :=
  S754_finite false 5277655813324800 (-43).

End Binary64.

(** ** Data model ([@urql/core]) *)

Inductive OperationType : Type :=
| query
| mutation
| subscription
| teardown.

(** The context object: the two fields the exchange owns and the rest of
    the caller's entries, which [...op.context] copies. *)
Record OperationContext : Type := mkContext {
  retryCount : option Z;
  retryDelay : option Q;
  meta : list (string * string)
}.

(** [payload] stands for the query document and the variables, which the
    exchange never looks at and [...op] copies. *)
Record Operation : Type := mkOperation {
  key : Z;
  operationName : OperationType;
  context : OperationContext;
  payload : string
}.

Record CombinedError : Type := mkError {
  networkError : option string;
  graphQLErrors : list string
}.

Record OperationResult : Type := mkResult {
  operation : Operation;
  data : option string;
  error : option CombinedError
}.

Record RetryExchangeOptions : Type := mkOptions {
  initialDelayMs : option Q;
  maxDelayMs : option Q;
  randomDelay : option bool;
  maxNumberAttempts : option Z;
  retryIfOption : option (CombinedError -> bool)
}.

(** Diagnostics handed to [dispatchDebug]. *)
Inductive DebugEvent : Type :=
| retryAttempt (op : Operation) (count : Z)
| retryExhausted (op : Operation).

(** Where an operation handed to [forward] comes from: [ops$], or the
    retry whose timer has the given number. *)
Inductive Origin : Type :=
| fromOps
| fromRetry (timer : nat).

(** What the exchange does, as seen from outside. *)
Inductive Action : Type :=
| Forward (o : Origin) (op : Operation)
| Emit (res : OperationResult)
| Debug (ev : DebugEvent)
| SetTimeout (timer : nat) (ms : Q).

(** What happens to the exchange. *)
Inductive Event : Type :=
| opArrives (op : Operation)
| resultArrives (res : OperationResult)
| delayElapses (timer : nat).

(** A retry that waits on its timer: the inner source of [mergeMap]. *)
Record Pending : Type := mkPending {
  timer : nat;
  watchedKey : Z;
  retryOp : Operation;
  wait : Q
}.

Record State : Type := mkState {
  pending : list Pending;
  nextTimer : nat;
  draws : nat
}.

Definition initialState : State :=
  {| pending := []; nextTimer := 0; draws := 0 |}.

(** ** The exchange *)

Section RetryExchange.

Variable opts : RetryExchangeOptions.

(** [Math.random], as the sequence of its successive results. *)
Variable random : nat -> Q.

(** [initialDelayMs || 1000], [maxDelayMs || 15000],
    [maxNumberAttempts || 2], [randomDelay || true] *)
Definition MIN_DELAY : Q := Js.orQ (initialDelayMs opts) 1000.
Definition MAX_DELAY : Q := Js.orQ (maxDelayMs opts) 15000.
Definition MAX_ATTEMPTS : Z := Js.orZ (maxNumberAttempts opts) 2.
Definition RANDOM_DELAY : bool := Js.orB (randomDelay opts) true.

(** [retryIfOption || (err => err && err.networkError)] *)
Definition retryIf : CombinedError -> bool :=
  Js.orF (retryIfOption opts)
         (fun err => match networkError err with Some _ => true | None => false end).

(** *** [retryWithBackoff$]: the body of [mergeMap] *)

(** [(context.retryCount || 0) + 1] *)
Definition nextRetryCount (ctx : OperationContext) : Z :=
  (Js.orZ (retryCount ctx) 0 + 1)%Z.

(** [context.retryDelay || MIN_DELAY] *)
Definition baseDelay (ctx : OperationContext) : Q :=
  Js.orQ (retryDelay ctx) MIN_DELAY.

(** [Math.random() + 1.5], for the draw [r] *)
Definition backoffFactor (r : Q) : Q := r + (3 # 2).

(** [if (RANDOM_DELAY && delayAmount * backoffFactor < MAX_DELAY)
      delayAmount *= backoffFactor] *)
Definition delayAmount (ctx : OperationContext) (r : Q) : Q :=
  let d := baseDelay ctx in
  if RANDOM_DELAY && Js.ltQ (d * backoffFactor r) MAX_DELAY
  then d * backoffFactor r
  else d.

(** The filter of [teardown$], for the key [k] of the failed operation. *)
Definition supersedes (k : Z) (op : Operation) : bool :=
  (match operationName op with
   | query | teardown => true
   | _ => false
   end) && (key op =? k)%Z.

(** [{...op, context: {...op.context, retryDelay, retryCount}}] *)
Definition withRetry (op : Operation) (d : Q) (c : Z) : Operation :=
  {| key := key op;
     operationName := operationName op;
     context := {| retryCount := Some c;
                   retryDelay := Some d;
                   meta := meta (context op) |};
     payload := payload op |}.

Definition retryOperation (op : Operation) (r : Q) : Operation :=
  withRetry op (delayAmount (context op) r) (nextRetryCount (context op)).

(** [nextRetryOperation(op)]: the subject pushes [op] into [mergeMap],
    whose body draws the factor, reports the attempt and returns the
    inner source; subscribing to it starts the timer and the watch on
    [teardown$]. *)
Definition nextRetryOperation (st : State) (op : Operation)
  : State * list Action :=
  let r := random (draws st) in
  let d := delayAmount (context op) r in
  let t := nextTimer st in
  ({| pending := pending st ++
                 [{| timer := t; watchedKey := key op;
                     retryOp := retryOperation op r; wait := d |}];
      nextTimer := S t;
      draws := S (draws st) |},
   [Debug (retryAttempt op (nextRetryCount (context op)));
    SetTimeout t d]).

(** *** [result$]: the filter behind [forward] *)

(** [(res.operation.context.retryCount || 0) >= MAX_ATTEMPTS - 1] *)
Definition maxNumberAttemptsExceeded (res : OperationResult) : bool :=
  (Js.orZ (retryCount (context (operation res))) 0 >=? MAX_ATTEMPTS - 1)%Z.

(** The filter: [Emit] where it returns [true]. *)
Definition onResult (st : State) (res : OperationResult)
  : State * list Action :=
  match error res with
  | None => (st, [Emit res])
  | Some e =>
      if negb (retryIf e) then (st, [Emit res])
      else if negb (maxNumberAttemptsExceeded res)
           then nextRetryOperation st (operation res)
           else (st, [Debug (retryExhausted (operation res)); Emit res])
  end.

(** *** [sharedOps$]: into [forward], and past every [teardown$] *)

(** [merge] subscribed first, so the operation goes to [forward]; then
    each pending retry whose [teardown$] lets it through is ended by
    [takeUntil]. *)

Definition onOperation (st : State) (op : Operation)
  : State * list Action :=
  ({| pending := filter (fun p => negb (supersedes (watchedKey p) op))
                        (pending st);
      nextTimer := nextTimer st;
      draws := draws st |},
   [Forward fromOps op]).

(** *** [delay]: the timer of a retry fires *)

(** The held operation is released into [merge] and so into [forward],
    and the inner source completes.  A timer whose source [takeUntil] has
    ended releases nothing. *)

Definition onTimer (st : State) (t : nat) : State * list Action :=
  match find (fun p => timer p =? t)%nat (pending st) with
  | Some p =>
      ({| pending := filter (fun p => negb (timer p =? t)%nat) (pending st);
          nextTimer := nextTimer st;
          draws := draws st |},
       [Forward (fromRetry t) (retryOp p)])
  | None => (st, [])
  end.

Definition step (st : State) (ev : Event) : State * list Action :=
  match ev with
  | opArrives op => onOperation st op
  | resultArrives res => onResult st res
  | delayElapses t => onTimer st t
  end.

Fixpoint run (st : State) (evs : list Event) : State * list Action :=
  match evs with
  | [] => (st, [])
  | ev :: evs' =>
      let (st1, acts1) := step st ev in
      let (st2, acts2) := run st1 evs' in
      (st2, acts1 ++ acts2)
  end.

End RetryExchange.


(** ** Scenario building blocks *)

(** The executor's answer to [op]: a result with a network error. *)
Definition networkFailure (op : Operation) : OperationResult :=
  {| operation := op;
     data := None;
     error := Some {| networkError := Some "Failed to fetch"%string;
                      graphQLErrors := [] |} |}.

(** [attempts]: the [retryCount] the filter reads, [0] when absent. *)
Definition attempts (op : Operation) : Z :=
  Js.orZ (retryCount (context op)) 0.

Definition setRandomDelay (o : RetryExchangeOptions) (b : option bool)
  : RetryExchangeOptions :=
  {| initialDelayMs := initialDelayMs o;
     maxDelayMs := maxDelayMs o;
     randomDelay := b;
     maxNumberAttempts := maxNumberAttempts o;
     retryIfOption := retryIfOption o |}.

Definition setRetryIf (o : RetryExchangeOptions)
           (f : option (CombinedError -> bool)) : RetryExchangeOptions :=
  {| initialDelayMs := initialDelayMs o;
     maxDelayMs := maxDelayMs o;
     randomDelay := randomDelay o;
     maxNumberAttempts := maxNumberAttempts o;
     retryIfOption := f |}.

(** The options of the worked example: three attempts, 100ms to 1000ms,
    [randomDelay: false]. *)
Definition exampleOptions : RetryExchangeOptions :=
  {| initialDelayMs := Some 100;
     maxDelayMs := Some 1000;
     randomDelay := Some false;
     maxNumberAttempts := Some 3%Z;
     retryIfOption := None |}.

(** No option given: every default applies. *)
Definition defaultOptions : RetryExchangeOptions :=
  {| initialDelayMs := None;
     maxDelayMs := None;
     randomDelay := None;
     maxNumberAttempts := None;
     retryIfOption := None |}.

(** A query as the caller issues it: no retry metadata yet. *)
Definition freshQuery (k : Z) : Operation :=
  {| key := k;
     operationName := query;
     context := {| retryCount := None; retryDelay := None; meta := [] |};
     payload := "{ todos { id } }"%string |}.

(** The same query after a retry cycle wrote its metadata. *)
Definition retriedQuery (k : Z) (c : Z) (d : Q) : Operation :=
  {| key := k;
     operationName := query;
     context := {| retryCount := Some c; retryDelay := Some d; meta := [] |};
     payload := "{ todos { id } }"%string |}.

(** The caller gives up on key [k]. *)
Definition teardownOf (k : Z) : Operation :=
  {| key := k;
     operationName := teardown;
     context := {| retryCount := None; retryDelay := None; meta := [] |};
     payload := "{ todos { id } }"%string |}.

(** A result with remote-side error entries only. *)
Definition graphQLFailure (op : Operation) : OperationResult :=
  {| operation := op;
     data := None;
     error := Some {| networkError := None;
                      graphQLErrors := ["Internal server error"%string] |} |}.

Definition success (op : Operation) : OperationResult :=
  {| operation := op; data := Some "{}"%string; error := None |}.

(** The exchange of the worked example after query 1 failed once: its
    first retry waits on timer [0]. *)
Definition oneFailure : list Event :=
  [opArrives (freshQuery 1); resultArrives (networkFailure (freshQuery 1))].

Definition firstRetry (random : nat -> Q) : Pending :=
  {| timer := 0;
     watchedKey := 1;
     retryOp := retryOperation exampleOptions (freshQuery 1) (random 0%nat);
     wait := delayAmount exampleOptions (context (freshQuery 1))
                         (random 0%nat) |}.

(** The worked example: query 1 is issued and the executor answers each
    of its three attempts with a network error; both timers fire. *)
Definition secondAttempt (random : nat -> Q) : Operation :=
  retryOperation exampleOptions (freshQuery 1) (random 0%nat).

Definition thirdAttempt (random : nat -> Q) : Operation :=
  retryOperation exampleOptions (secondAttempt random) (random 1%nat).

Definition threeFailures (random : nat -> Q) : list Event :=
  [opArrives (freshQuery 1);
   resultArrives (networkFailure (freshQuery 1));
   delayElapses 0;
   resultArrives (networkFailure (secondAttempt random));
   delayElapses 1;
   resultArrives (networkFailure (thirdAttempt random))].

Definition firstWait (random : nat -> Q) : Q :=
  delayAmount exampleOptions (context (freshQuery 1)) (random 0%nat).

Definition secondWait (random : nat -> Q) : Q :=
  delayAmount exampleOptions (context (secondAttempt random)) (random 1%nat).

(** [Math.random] stuck at its least value. *)
Definition lowDraws (n : nat) : Q := 0.

(** The states the exchange can be in: those some sequence of events
    leads to from the initial one. *)
Definition reachable (opts : RetryExchangeOptions) (random : nat -> Q)
           (st : State) : Prop :=
  exists evs, fst (run opts random initialState evs) = st.

(** Timers are numbered in the order they are started, each retry watches
    the key of its own operation. *)
Definition wellFormed (st : State) : Prop :=
  Forall (fun p => (timer p < nextTimer st)%nat /\
                   watchedKey p = key (retryOp p)) (pending st) /\
  NoDup (map timer (pending st)).

(** One retry cycle: the executor answers with [res], the exchange starts
    the timer [t] for it and later, whatever else happens in between, the
    retry of that timer hands [op'] to [forward]. *)
Inductive retriedAs (opts : RetryExchangeOptions)
  : Operation -> Operation -> Prop :=
| retried_cycle random st res t d more op' :
    reachable opts random st ->
    In (SetTimeout t d) (snd (step opts random st (resultArrives res))) ->
    In (Forward (fromRetry t) op')
       (snd (run opts random
                 (fst (step opts random st (resultArrives res))) more)) ->
    retriedAs opts (operation res) op'.

(** [n] retry cycles in a row lead from the first operation to the last. *)
Inductive retriedTimes (opts : RetryExchangeOptions)
  : nat -> Operation -> Operation -> Prop :=
| retried_none op : retriedTimes opts 0 op op
| retried_more n op op1 op2 :
    retriedTimes opts n op op1 ->
    retriedAs opts op1 op2 ->
    retriedTimes opts (S n) op op2.

Definition isPending (t : nat) (st : State) : Prop :=
  In t (map timer (pending st)).

(** A timer that was started and is no longer pending: it fired, or its
    retry was discarded. *)
Definition spent (t : nat) (st : State) : Prop :=
  ~ isPending t st /\ (t < nextTimer st)%nat.

(** The timer [t] has been started, and for the retry [p] only. *)
Definition timerOf (t : nat) (p : Pending) (st : State) : Prop :=
  (forall q, In q (pending st) -> timer q = t -> q = p) /\
  (t < nextTimer st)%nat.

(** Every pending retry carries a count within the bound. *)
Definition boundedRetries (opts : RetryExchangeOptions) (st : State) : Prop :=
  forall p, In p (pending st) ->
    exists c, retryCount (context (retryOp p)) = Some c /\
              (c <= MAX_ATTEMPTS opts - 1)%Z.

(** The retry [p] was announced in [acts]: a [retryAttempt] diagnostic for
    the failed operation, and right after it the start of [p]'s timer. *)
Definition reported (opts : RetryExchangeOptions) (acts : list Action)
           (p : Pending) : Prop :=
  exists op r before after,
    acts = before ++
           Debug (retryAttempt op (attempts op + 1)) ::
           SetTimeout (timer p) (wait p) :: after /\
    key op = watchedKey p /\
    retryOp p = retryOperation opts op r.

(** ** Observations on the actions and events of a run *)

(** What the caller is given, what [dispatchDebug] is given, what [forward]
    is given from [ops$], and the timers whose retry [forward] is given. *)
Definition emitted (acts : list Action) : list OperationResult :=
  flat_map (fun a => match a with Emit res => [res] | _ => [] end) acts.

Definition diagnostics (acts : list Action) : list DebugEvent :=
  flat_map (fun a => match a with Debug ev => [ev] | _ => [] end) acts.

Definition forwardedOps (acts : list Action) : list Operation :=
  flat_map (fun a => match a with Forward fromOps op => [op] | _ => [] end)
           acts.

Definition releasedTimers (acts : list Action) : list nat :=
  flat_map (fun a => match a with Forward (fromRetry t) _ => [t] | _ => [] end)
           acts.

(** What the executor pushes and what arrives on [ops$]. *)
Definition pushed (evs : list Event) : list OperationResult :=
  flat_map (fun ev => match ev with resultArrives res => [res] | _ => [] end)
           evs.

Definition arrived (evs : list Event) : list Operation :=
  flat_map (fun ev => match ev with opArrives op => [op] | _ => [] end) evs.

(** The verdict of the filter of [result$] on a result: [true] where the
    filter returns [false] and the operation goes to the backoff path. *)
Definition withheld (opts : RetryExchangeOptions) (res : OperationResult)
  : bool :=
  match error res with
  | None => false
  | Some e => retryIf opts e && negb (maxNumberAttemptsExceeded opts res)
  end.

(** The diagnostic the filter causes for a result, if any. *)
Definition diagnosticOf (opts : RetryExchangeOptions) (res : OperationResult)
  : list DebugEvent :=
  match error res with
  | None => []
  | Some e =>
      if retryIf opts e
      then if maxNumberAttemptsExceeded opts res
           then [retryExhausted (operation res)]
           else [retryAttempt (operation res)
                              (nextRetryCount (context (operation res)))]
      else []
  end.

(** Successive retry cycles of one operation, one random draw each. *)
Definition retryChain (opts : RetryExchangeOptions) (rs : list Q)
           (op : Operation) : Operation :=
  fold_left (retryOperation opts) rs op.

Definition setInitialDelayMs (o : RetryExchangeOptions) (d : option Q)
  : RetryExchangeOptions :=
  {| initialDelayMs := d;
     maxDelayMs := maxDelayMs o;
     randomDelay := randomDelay o;
     maxNumberAttempts := maxNumberAttempts o;
     retryIfOption := retryIfOption o |}.

Definition setMaxDelayMs (o : RetryExchangeOptions) (d : option Q)
  : RetryExchangeOptions :=
  {| initialDelayMs := initialDelayMs o;
     maxDelayMs := d;
     randomDelay := randomDelay o;
     maxNumberAttempts := maxNumberAttempts o;
     retryIfOption := retryIfOption o |}.

Definition setMaxNumberAttempts (o : RetryExchangeOptions) (n : option Z)
  : RetryExchangeOptions :=
  {| initialDelayMs := initialDelayMs o;
     maxDelayMs := maxDelayMs o;
     randomDelay := randomDelay o;
     maxNumberAttempts := n;
     retryIfOption := retryIfOption o |}.

(** The timer of [p] was started for the delay [p] carries, which is the
    [retryDelay] written into its operation. *)
Definition timed (acts : list Action) (p : Pending) : Prop :=
  In (SetTimeout (timer p) (wait p)) acts /\
  retryDelay (context (retryOp p)) = Some (wait p).

(** A mutation of key 1 and a query of another key. *)
Definition mutationOf (k : Z) : Operation :=
  {| key := k;
     operationName := mutation;
     context := {| retryCount := None; retryDelay := None; meta := [] |};
     payload := "mutation { addTodo }"%string |}.

(** The executor answers query 1 twice with a network error: two retries
    of key 1 are pending, on the timers [0] and [1]. *)
Definition twoFailures : list Event :=
  [opArrives (freshQuery 1);
   resultArrives (networkFailure (freshQuery 1));
   resultArrives (networkFailure (freshQuery 1))].

Definition secondRetry (random : nat -> Q) : Pending :=
  {| timer := 1;
     watchedKey := 1;
     retryOp := retryOperation exampleOptions (freshQuery 1) (random 1%nat);
     wait := delayAmount exampleOptions (context (freshQuery 1))
                         (random 1%nat) |}.

(** Options whose first delay is already at the maximum, and options
    that allow a single attempt. *)
Definition cappedOptions : RetryExchangeOptions :=
  {| initialDelayMs := Some 2000;
     maxDelayMs := Some 1000;
     randomDelay := None;
     maxNumberAttempts := Some 5%Z;
     retryIfOption := None |}.

Definition singleAttemptOptions : RetryExchangeOptions :=
  {| initialDelayMs := None;
     maxDelayMs := None;
     randomDelay := None;
     maxNumberAttempts := Some 1%Z;
     retryIfOption := None |}.

(** The timers a run starts. *)
Definition startedTimers (acts : list Action) : list nat :=
  flat_map (fun a => match a with SetTimeout t _ => [t] | _ => [] end) acts.

(** The retry [p] stems from a result the executor pushed and the filter
    withheld. *)
Definition stemsFrom (opts : RetryExchangeOptions)
           (results : list OperationResult) (p : Pending) : Prop :=
  exists res r,
    In res results /\
    withheld opts res = true /\
    retryOp p = retryOperation opts (operation res) r.

(** A run without timers and without retries. *)
Definition quiet (st : State) (acts : list Action) : Prop :=
  pending st = [] /\
  releasedTimers acts = [] /\
  forall t d, ~ In (SetTimeout t d) acts.

(** ** Arithmetic of the fallbacks and of the backoff *)

Lemma ltQ_true (x y : Q) : Js.ltQ x y = true <-> x < y.
Proof.
  unfold Js.ltQ. rewrite negb_true_iff.
  split; intro H.
  - apply Qnot_le_lt. intro Hle. apply Qle_bool_iff in Hle. congruence.
  - destruct (Qle_bool y x) eqn:E; [|reflexivity].
    apply Qle_bool_iff in E. exfalso. exact (Qlt_not_le _ _ H E).
Qed.

Lemma ltQ_false (x y : Q) : Js.ltQ x y = false <-> y <= x.
Proof.
  unfold Js.ltQ. rewrite negb_false_iff. apply Qle_bool_iff.
Qed.

Lemma orQ_truthy (a : option Q) (b : Q) : ~ b == 0 -> ~ Js.orQ a b == 0.
Proof.
  intros Hb. unfold Js.orQ. destruct a as [q|]; [|exact Hb].
  destruct (Qeq_bool q 0) eqn:E; [exact Hb|].
  now apply Qeq_bool_neq.
Qed.

Lemma orQ_of_truthy (q b : Q) : ~ q == 0 -> Js.orQ (Some q) b = q.
Proof.
  intros Hq. unfold Js.orQ. destruct (Qeq_bool q 0) eqn:E; [|reflexivity].
  apply Qeq_bool_iff in E. contradiction.
Qed.

Lemma MIN_DELAY_truthy opts : ~ MIN_DELAY opts == 0.
Proof. apply orQ_truthy. discriminate. Qed.

Lemma baseDelay_truthy opts ctx : ~ baseDelay opts ctx == 0.
Proof. apply orQ_truthy, MIN_DELAY_truthy. Qed.

Lemma RANDOM_DELAY_true opts : RANDOM_DELAY opts = true.
Proof. unfold RANDOM_DELAY, Js.orB. now destruct (randomDelay opts) as [[|]|]. Qed.

Lemma backoffFactor_range (r : Q) :
  0 <= r < 1 -> 3 # 2 <= backoffFactor r /\ backoffFactor r < 5 # 2.
Proof. unfold backoffFactor. intros [H0 H1]. split; lra. Qed.

Lemma delayAmount_cases opts ctx r :
  delayAmount opts ctx r =
  if Js.ltQ (baseDelay opts ctx * backoffFactor r) (MAX_DELAY opts)
  then baseDelay opts ctx * backoffFactor r
  else baseDelay opts ctx.
Proof. unfold delayAmount. now rewrite RANDOM_DELAY_true. Qed.

Lemma delayAmount_truthy opts ctx r :
  0 <= r < 1 -> ~ delayAmount opts ctx r == 0.
Proof.
  intros Hr. rewrite delayAmount_cases.
  pose proof (baseDelay_truthy opts ctx) as Hd.
  destruct (Js.ltQ _ _); [|exact Hd].
  intro H. apply Qmult_integral in H. destruct H as [H|H]; [contradiction|].
  apply backoffFactor_range in Hr. destruct Hr as [Hlo _]. rewrite H in Hlo.
  revert Hlo. apply Qlt_not_le. reflexivity.
Qed.

(** ** Invariants of the transition system *)

Section Invariants.

Variable opts : RetryExchangeOptions.
Variable random : nat -> Q.

Lemma run_app st evs1 evs2 :
  run opts random st (evs1 ++ evs2) =
  let (st1, a1) := run opts random st evs1 in
  let (st2, a2) := run opts random st1 evs2 in
  (st2, a1 ++ a2).
Proof.
  revert st. induction evs1 as [|ev evs1 IH]; intros st; simpl.
  - now destruct (run opts random st evs2).
  - destruct (step opts random st ev) as [st1 a1].
    rewrite IH.
    destruct (run opts random st1 evs1) as [st2 a2].
    destruct (run opts random st2 evs2) as [st3 a3].
    now rewrite app_assoc.
Qed.

Lemma onResult_cases st res :
  (onResult opts random st res = (st, [Emit res]) /\
   (error res = None \/
    exists e, error res = Some e /\ retryIf opts e = false)) \/
  (onResult opts random st res =
     (st, [Debug (retryExhausted (operation res)); Emit res]) /\
   (exists e, error res = Some e /\ retryIf opts e = true) /\
   (attempts (operation res) >= MAX_ATTEMPTS opts - 1)%Z) \/
  (onResult opts random st res =
     nextRetryOperation opts random st (operation res) /\
   (exists e, error res = Some e /\ retryIf opts e = true) /\
   (attempts (operation res) < MAX_ATTEMPTS opts - 1)%Z).
Proof.
  unfold onResult, maxNumberAttemptsExceeded, attempts.
  destruct (error res) as [e|]; [|left; auto].
  destruct (retryIf opts e) eqn:Hif; simpl.
  - destruct (Z.geb_spec (Js.orZ (retryCount (context (operation res))) 0)
                         (MAX_ATTEMPTS opts - 1)) as [Hge|Hlt]; simpl.
    + right; left. repeat split; eauto. lia.
    + right; right. repeat split; eauto.
  - left. split; eauto.
Qed.

Lemma filter_pending_wf (f : Pending -> bool) st n :
  wellFormed st -> (nextTimer st <= n)%nat ->
  wellFormed {| pending := filter f (pending st);
                nextTimer := n; draws := draws st |}.
Proof.
  intros [Hall Hnd] Hn. split; simpl.
  - rewrite Forall_forall in *. intros p Hp.
    apply filter_In in Hp. destruct Hp as [Hp _].
    destruct (Hall p Hp) as [Hlt Hk]. split; [lia|exact Hk].
  - clear Hall Hn. induction (pending st) as [|p l IH]; simpl; [constructor|].
    inversion Hnd as [|? ? Hnotin Hnd']; subst.
    destruct (f p); simpl; [|now apply IH].
    constructor; [|now apply IH].
    intro Hin. apply Hnotin. apply in_map_iff in Hin.
    destruct Hin as [p' [Ht Hp']]. apply filter_In in Hp'.
    apply in_map_iff. exists p'. tauto.
Qed.

Lemma nextRetryOperation_wf st op :
  wellFormed st -> wellFormed (fst (nextRetryOperation opts random st op)).
Proof.
  intros [Hall Hnd]. split; simpl.
  - apply Forall_app. split.
    + rewrite Forall_forall in *. intros p Hp.
      destruct (Hall p Hp). split; [lia|assumption].
    + constructor; [|constructor]. simpl. split; [lia|reflexivity].
  - rewrite map_app. simpl.
    apply NoDup_app; [exact Hnd | repeat constructor; intros [] | ].
    intros t Hin [Heq|[]]. subst t.
    apply in_map_iff in Hin. destruct Hin as [p [Ht Hp]].
    rewrite Forall_forall in Hall. destruct (Hall p Hp). lia.
Qed.

Lemma step_wf st ev :
  wellFormed st -> wellFormed (fst (step opts random st ev)).
Proof.
  intros Hwf. destruct ev as [op|res|t]; simpl.
  - now apply filter_pending_wf.
  - destruct (onResult_cases st res) as [[-> _]|[[-> _]|[-> _]]];
      simpl; auto.
    now apply nextRetryOperation_wf.
  - unfold onTimer. destruct (find _ _); simpl; [|exact Hwf].
    now apply filter_pending_wf.
Qed.

Lemma run_wf st evs :
  wellFormed st -> wellFormed (fst (run opts random st evs)).
Proof.
  revert st. induction evs as [|ev evs IH]; intros st Hwf; simpl; [exact Hwf|].
  pose proof (step_wf st ev Hwf) as H1.
  destruct (step opts random st ev) as [st1 a1]. simpl in H1.
  specialize (IH st1 H1).
  destruct (run opts random st1 evs) as [st2 a2]. exact IH.
Qed.

Lemma initialState_wf : wellFormed initialState.
Proof. split; simpl; constructor. Qed.

Lemma reachable_wf st : reachable opts random st -> wellFormed st.
Proof. intros [evs <-]. apply run_wf, initialState_wf. Qed.

End Invariants.

(** ** The jitter flag *)

(** C2.  [RANDOM_DELAY] is [randomDelay || true], which is [true] for every
    value of the option: the exchange configured with [randomDelay: false]
    takes the same step on every event as the one with the option left
    out, and the delay is scaled whenever the scaled value stays under the
    maximum, whatever the options say. *)
Theorem jitter_flag_always_enabled :
  forall opts : RetryExchangeOptions,
    RANDOM_DELAY opts = true /\
    (forall random st ev,
        step (setRandomDelay opts (Some false)) random st ev =
        step (setRandomDelay opts None) random st ev) /\
    (forall ctx r,
        delayAmount opts ctx r =
        if Js.ltQ (baseDelay opts ctx * backoffFactor r) (MAX_DELAY opts)
        then baseDelay opts ctx * backoffFactor r
        else baseDelay opts ctx).
Proof.
  intros opts. split; [apply RANDOM_DELAY_true|]. split.
  - intros random st ev. reflexivity.
  - apply delayAmount_cases.
Qed.

(** ** The backoff scheduler *)

Lemma lowDraws_range : forall n, 0 <= lowDraws n < 1.
Proof. intros n. unfold lowDraws. split; [discriminate|reflexivity]. Defined.

(** *** Rounding of [Math.random() + 1.5] *)

Section Binary64Rounding.

Local Open Scope Z_scope.

(** The constants are the doubles they are named after. *)
Lemma binary64_constants :
  Zpos 4503599627370496 = 1 * 2 ^ 52 /\
  2 * Zpos 6755399441055744 = 3 * 2 ^ 52 /\
  2 * Zpos 5629499534213120 = 5 * 2 ^ 51 /\
  Zpos 8796093022208000 = 1000 * 2 ^ 43 /\
  Zpos 8246337208320000 = 15000 * 2 ^ 39 /\
  Zpos 9007199254740990 = 2 ^ 53 - 2 /\
  Zpos 7036874417766400 = 100 * 2 ^ 46 /\
  Zpos 5277655813324800 = 600 * 2 ^ 43 /\
  Forall (fun x => Binary64.valid x = true)
         (Binary64.one :: Binary64.onePointFive :: Binary64.twoPointFive ::
          Binary64.thousand :: Binary64.fifteenThousand ::
          Binary64.lastDraw :: Binary64.halfDraw :: Binary64.hundred ::
          Binary64.twoHundred :: Binary64.sixHundred :: nil).
Proof. repeat split; repeat constructor. Qed.

Lemma digits2_bounds (p : positive) :
  2 ^ (Zpos (digits2_pos p) - 1) <= Zpos p < 2 ^ Zpos (digits2_pos p).
Proof.
  induction p as [p IH|p IH|]; simpl digits2_pos.
  - rewrite Pos2Z.inj_succ.
    replace (Z.succ (Zpos (digits2_pos p)) - 1) with (Z.succ (Zpos (digits2_pos p) - 1)) by lia.
    rewrite !Z.pow_succ_r by lia. lia.
  - rewrite Pos2Z.inj_succ.
    replace (Z.succ (Zpos (digits2_pos p)) - 1) with (Z.succ (Zpos (digits2_pos p) - 1)) by lia.
    rewrite !Z.pow_succ_r by lia. lia.
  - simpl. lia.
Qed.

Lemma digits2_unique (p : positive) (k : Z) :
  2 ^ (k - 1) <= Zpos p < 2 ^ k -> Zpos (digits2_pos p) = k.
Proof.
  intros [Hlo Hhi]. destruct (digits2_bounds p) as [Dlo Dhi].
  assert (0 < k).
  { destruct (Z.lt_trichotomy k 0) as [H|[H|H]]; [|subst; simpl in Hhi; lia|lia].
    rewrite Z.pow_neg_r in Hhi by lia. lia. }
  destruct (Z.lt_trichotomy (Zpos (digits2_pos p)) k) as [H1|[H1|H1]]; [|exact H1|].
  - exfalso. assert (2 ^ Zpos (digits2_pos p) <= 2 ^ (k - 1))
      by (apply Z.pow_le_mono_r; lia). lia.
  - exfalso. assert (2 ^ k <= 2 ^ (Zpos (digits2_pos p) - 1))
      by (apply Z.pow_le_mono_r; lia). lia.
Qed.

Lemma shr_1_m (mrs : shr_record) :
  0 <= shr_m mrs -> shr_m (shr_1 mrs) = shr_m mrs / 2.
Proof.
  destruct mrs as [m r s]. cbn [shr_m]. intros Hm.
  destruct m as [|[p|p|]|p]; cbn [shr_1 shr_m]; try lia.
  - reflexivity.
  - apply Z.div_unique with 1; lia.
  - apply Z.div_unique with 0; lia.
  - reflexivity.
Qed.

Lemma iter_shr_m (p : positive) :
  forall mrs, 0 <= shr_m mrs ->
    shr_m (iter_pos shr_1 p mrs) = shr_m mrs / 2 ^ Zpos p.
Proof.
  induction p as [p IH|p IH|]; intros mrs Hm; simpl iter_pos.
  - assert (H1 : 0 <= shr_m (shr_1 mrs))
      by (rewrite shr_1_m by exact Hm; apply Z.div_pos; lia).
    assert (H2 : 0 <= shr_m (iter_pos shr_1 p (shr_1 mrs)))
      by (rewrite IH by exact H1; apply Z.div_pos; [exact H1|apply Z.pow_pos_nonneg; lia]).
    rewrite IH by exact H2. rewrite IH by exact H1. rewrite shr_1_m by exact Hm.
    rewrite !Z.div_div by (try apply Z.pow_pos_nonneg; lia).
    f_equal. replace (Zpos p~1) with (1 + Zpos p + Zpos p) by lia.
    rewrite !Z.pow_add_r by lia. lia.
  - assert (H2 : 0 <= shr_m (iter_pos shr_1 p mrs))
      by (rewrite IH by exact Hm; apply Z.div_pos; [exact Hm|apply Z.pow_pos_nonneg; lia]).
    rewrite IH by exact H2. rewrite IH by exact Hm.
    rewrite !Z.div_div by (try apply Z.pow_pos_nonneg; lia).
    f_equal. replace (Zpos p~0) with (Zpos p + Zpos p) by lia.
    rewrite Z.pow_add_r by lia. lia.
  - now apply shr_1_m.
Qed.

Lemma round_nearest_even_bounds (mx : Z) (lx : location) :
  mx <= round_nearest_even mx lx <= mx + 1.
Proof.
  destruct lx as [|[| |]]; simpl; try lia.
  destruct (Z.even mx); lia.
Qed.

Lemma iter_xO (d p : positive) :
  Zpos (Pos.iter xO p d) = Zpos p * 2 ^ Zpos d.
Proof.
  induction d as [|d IH] using Pos.peano_ind.
  - simpl. lia.
  - rewrite Pos.iter_succ, Pos2Z.inj_succ, Z.pow_succ_r by lia.
    replace (Zpos (Pos.iter xO p d)~0) with (2 * Zpos (Pos.iter xO p d)) by lia.
    rewrite IH. lia.
Qed.

Lemma fexp_normal (k e : Z) :
  -1074 <= e -> k - 53 = e -> fexp 53 1024 k = e.
Proof. unfold fexp, emin. lia. Qed.

Lemma shr_fexp_shift (m : positive) (ex : Z) (pn : positive) :
  -1074 <= ex + Zpos pn ->
  Zpos (digits2_pos m) - 53 = Zpos pn ->
  shr_fexp 53 1024 (Zpos m) ex loc_Exact =
  (iter_pos shr_1 pn {| shr_m := Zpos m; shr_r := false; shr_s := false |},
   ex + Zpos pn).
Proof.
  intros Hmin Hd. unfold shr_fexp. cbn [Zdigits2 shr_record_of_loc].
  rewrite (fexp_normal _ (ex + Zpos pn)) by lia.
  replace (ex + Zpos pn - ex) with (Zpos pn) by lia.
  reflexivity.
Qed.

Lemma shr_fexp_keep (m : positive) (ex : Z) :
  -1074 <= ex ->
  Zpos (digits2_pos m) = 53 ->
  shr_fexp 53 1024 (Zpos m) ex loc_Exact =
  ({| shr_m := Zpos m; shr_r := false; shr_s := false |}, ex).
Proof.
  intros Hmin Hd. unfold shr_fexp. cbn [Zdigits2 shr_record_of_loc].
  rewrite (fexp_normal _ ex) by lia.
  replace (ex - ex) with 0 by lia. reflexivity.
Qed.

Lemma round_aux_normal (m : positive) (ex : Z) (pn : positive) :
  -1074 <= ex + Zpos pn ->
  ex + Zpos pn + 1 <= 971 ->
  Zpos (digits2_pos m) - 53 = Zpos pn ->
  let q := Zpos m / 2 ^ Zpos pn in
  2 ^ 52 <= q < 2 ^ 53 /\
  exists M E,
    binary_round_aux 53 1024 false (Zpos m) ex loc_Exact = S754_finite false M E /\
    ((E = ex + Zpos pn /\ q <= Zpos M <= q + 1 /\ Zpos M < 2 ^ 53) \/
     (E = ex + Zpos pn + 1 /\ Zpos M = 2 ^ 52 /\ q = 2 ^ 53 - 1)).
Proof.
  intros Hmin Hmax Hd q.
  assert (Hq : 2 ^ 52 <= q < 2 ^ 53).
  { destruct (digits2_bounds m) as [Hlo Hhi].
    replace (Zpos (digits2_pos m) - 1) with (52 + Zpos pn) in Hlo by lia.
    replace (Zpos (digits2_pos m)) with (53 + Zpos pn) in Hhi by lia.
    rewrite Z.pow_add_r in Hlo, Hhi by lia.
    assert (0 < 2 ^ Zpos pn) by (apply Z.pow_pos_nonneg; lia).
    subst q. split.
    - apply Z.div_le_lower_bound; lia.
    - apply Z.div_lt_upper_bound; lia. }
  split; [exact Hq|].
  unfold binary_round_aux.
  rewrite (shr_fexp_shift m ex pn Hmin Hd).
  set (mrs := iter_pos shr_1 pn _).
  assert (Hm : shr_m mrs = q) by (subst mrs q; apply iter_shr_m; simpl; lia).
  pose proof (round_nearest_even_bounds (shr_m mrs) (loc_of_shr_record mrs)) as Hr.
  set (M1 := round_nearest_even (shr_m mrs) (loc_of_shr_record mrs)) in *.
  rewrite Hm in Hr.
  destruct M1 as [|pm|pm] eqn:EM; try lia.
  destruct (Z.lt_ge_cases (Zpos pm) (2 ^ 53)) as [Hlt|Hge].
  - assert (Hdig : Zpos (digits2_pos pm) = 53)
      by (apply digits2_unique; simpl Z.sub; lia).
    rewrite (shr_fexp_keep pm _ Hmin Hdig). cbn [shr_m].
    replace (ex + Zpos pn <=? 1024 - 53) with true by (symmetry; apply Z.leb_le; lia).
    exists pm, (ex + Zpos pn). split; [reflexivity|]. left. lia.
  - assert (Hpm : Zpos pm = 2 ^ 53) by lia.
    assert (pm = 9007199254740992%positive) by (apply Pos2Z.inj; rewrite Hpm; reflexivity).
    subst pm.
    unfold shr_fexp. cbn [Zdigits2 shr_record_of_loc].
    replace (Zpos (digits2_pos 9007199254740992)) with 54 by reflexivity.
    rewrite (fexp_normal _ (ex + Zpos pn + 1)) by lia.
    replace (ex + Zpos pn + 1 - (ex + Zpos pn)) with 1 by lia.
    cbn [shr iter_pos shr_1 shr_m].
    replace (ex + Zpos pn + 1 <=? 1024 - 53) with true by (symmetry; apply Z.leb_le; lia).
    eexists _, _. split; [reflexivity|]. right. split; [reflexivity|]. split; [reflexivity|]. lia.
Qed.

Lemma compare_cont_Z (a b : positive) :
  Pos.compare_cont Eq a b = (Zpos a ?= Zpos b).
Proof. reflexivity. Qed.

Lemma random_shape (r : spec_float) :
  Binary64.valid r = true ->
  SFleb Binary64.zero r = true ->
  SFltb r Binary64.one = true ->
  (exists s, r = S754_zero s) \/
  (exists m e, r = S754_finite false m e /\ Zpos m < 2 ^ 53 /\ -1074 <= e <= -53).
Proof.
  intros Hv H0 H1. destruct r as [s|s| |s m e].
  - left. eauto.
  - destruct s; discriminate.
  - discriminate.
  - right. destruct s; [discriminate|]. exists m, e. split; [reflexivity|].
    unfold Binary64.valid, valid_binary, bounded, canonical_mantissa in Hv.
    apply andb_true_iff in Hv. destruct Hv as [Hc _].
    apply Z.eqb_eq in Hc. unfold fexp, emin, Binary64.prec, Binary64.emax in Hc.
    destruct (digits2_bounds m) as [Dlo Dhi].
    assert (Hdig : Zpos (digits2_pos m) <= 53) by lia.
    assert (Hm : Zpos m < 2 ^ 53).
    { assert (2 ^ Zpos (digits2_pos m) <= 2 ^ 53) by (apply Z.pow_le_mono_r; lia).
      lia. }
    split; [exact Hm|]. split; [lia|].
    unfold SFltb, SFcompare, Binary64.one in H1.
    destruct (Z.compare_spec e (-52)) as [He|He|He]; try discriminate; [|lia].
    exfalso. subst e.
    assert (Zpos (digits2_pos m) = 53) by lia.
    replace (Zpos (digits2_pos m) - 1) with 52 in Dlo by lia.
    rewrite compare_cont_Z in H1.
    change (Zpos 4503599627370496) with (2 ^ 52) in H1.
    destruct (Z.compare_spec (Zpos m) (2 ^ 52)); try discriminate. lia.
Qed.

Lemma add_onePointFive (m : positive) (e : Z) :
  Zpos m < 2 ^ 53 -> -1074 <= e <= -53 ->
  exists M E,
    Binary64.backoffFactor (S754_finite false m e) = S754_finite false M E /\
    ((E = -52 /\ 3 * 2 ^ 51 <= Zpos M < 2 ^ 53) \/
     (E = -51 /\ 2 ^ 52 <= Zpos M <= 5 * 2 ^ 50)).
Proof.
  intros Hm He.
  unfold Binary64.backoffFactor, Binary64.add, Binary64.onePointFive, SFadd.
  replace (Z.min e (-52)) with e by lia.
  unfold shl_align at 1. replace (e - e) with 0 by lia. cbn [fst cond_Zopp].
  unfold shl_align at 1.
  destruct (e - -52) as [|d|d] eqn:Ed; try lia.
  cbn [fst cond_Zopp].
  set (big := Pos.iter xO 6755399441055744%positive d).
  assert (Hbig : Zpos big = 3 * 2 ^ 51 * 2 ^ Zpos d)
    by (subst big; rewrite iter_xO; reflexivity).
  assert (HP : 2 <= 2 ^ Zpos d).
  { change 2 with (2 ^ 1) at 1. apply Z.pow_le_mono_r; lia. }
  change (Zpos m + Zpos big) with (Zpos (m + big)).
  cbn [binary_normalize]. unfold binary_round.
  set (S := (m + big)%positive).
  assert (HS : Zpos S = Zpos m + 3 * 2 ^ 51 * 2 ^ Zpos d)
    by (subst S; rewrite Pos2Z.inj_add, Hbig; reflexivity).
  destruct (Z.lt_ge_cases (Zpos S) (2 ^ 53 * 2 ^ Zpos d)) as [Hlt|Hge].
  - assert (Hdig : Zpos (digits2_pos S) = 53 + Zpos d).
    { apply digits2_unique.
      replace (53 + Zpos d - 1) with (52 + Zpos d) by lia.
      rewrite !Z.pow_add_r by lia. lia. }
    rewrite (fexp_normal _ (e + Zpos d)) by lia.
    unfold shl_align. destruct (e + Zpos d - e) eqn:E1; try lia.
    destruct (round_aux_normal S e d) as [Hq [M [E [HR Hcases]]]]; try lia.
    exists M, E. split; [exact HR|].
    assert (Hqlo : 3 * 2 ^ 51 <= Zpos S / 2 ^ Zpos d)
      by (apply Z.div_le_lower_bound; lia).
    destruct Hcases as [[-> [Hb Hlt53]]|[-> [HM _]]].
    + left. split; [lia|]. lia.
    + right. split; [lia|]. rewrite HM. lia.
  - assert (Hdig : Zpos (digits2_pos S) = 54 + Zpos d).
    { apply digits2_unique.
      replace (54 + Zpos d - 1) with (53 + Zpos d) by lia.
      rewrite !Z.pow_add_r by lia. lia. }
    rewrite (fexp_normal _ (e + Zpos d + 1)) by lia.
    unfold shl_align. destruct (e + Zpos d + 1 - e) eqn:E1; try lia.
    destruct (round_aux_normal S e (d + 1)) as [Hq [M [E [HR Hcases]]]]; try lia.
    exists M, E. split; [exact HR|].
    assert (Hpow : 2 ^ Zpos (d + 1) = 2 * 2 ^ Zpos d)
      by (rewrite Pos2Z.inj_add, Z.pow_add_r by lia; lia).
    rewrite Hpow in Hq, Hcases.
    assert (Hqhi : Zpos S / (2 * 2 ^ Zpos d) < 5 * 2 ^ 50)
      by (apply Z.div_lt_upper_bound; lia).
    right. destruct Hcases as [[-> [Hb _]]|[_ [_ Hq53]]]; [|lia].
    split; [lia|]. lia.
Qed.


Lemma SFcompare_antisym (x y : spec_float) :
  SFcompare y x = option_map CompOpp (SFcompare x y).
Proof.
  destruct x as [s1|s1| |s1 m1 e1], y as [s2|s2| |s2 m2 e2]; simpl;
    try reflexivity;
    try (destruct s1; reflexivity); try (destruct s2; reflexivity);
    try (destruct s1, s2; reflexivity).
  destruct s1, s2; try reflexivity.
  - rewrite (Z.compare_antisym e1 e2).
    destruct (e1 ?= e2); simpl; try reflexivity.
    rewrite !compare_cont_Z, (Z.compare_antisym (Zpos m1) (Zpos m2)).
    now destruct (Zpos m1 ?= Zpos m2).
  - rewrite (Z.compare_antisym e1 e2).
    destruct (e1 ?= e2); simpl; try reflexivity.
    rewrite !compare_cont_Z, (Z.compare_antisym (Zpos m1) (Zpos m2)).
    now destruct (Zpos m1 ?= Zpos m2).
Qed.

Lemma leb_not_ltb (x y : spec_float) :
  Binary64.leb x y = true -> Binary64.ltb y x = false.
Proof.
  unfold Binary64.leb, Binary64.ltb, SFleb, SFltb.
  rewrite (SFcompare_antisym x y).
  destruct (SFcompare x y) as [[| |]|]; simpl; congruence.
Qed.

Lemma leb_same_exponent (a b : positive) (e : Z) :
  Zpos a <= Zpos b ->
  Binary64.leb (S754_finite false a e) (S754_finite false b e) = true.
Proof.
  intros H. unfold Binary64.leb, SFleb, SFcompare.
  rewrite Z.compare_refl, compare_cont_Z.
  destruct (Z.compare_spec (Zpos a) (Zpos b)); try reflexivity. lia.
Qed.

Lemma leb_lower_exponent (a b : positive) (e1 e2 : Z) :
  e1 < e2 ->
  Binary64.leb (S754_finite false a e1) (S754_finite false b e2) = true.
Proof.
  intros H. unfold Binary64.leb, SFleb, SFcompare.
  apply Z.compare_lt_iff in H. now rewrite H.
Qed.

Lemma factor_in_closed_range (r : spec_float) :
  Binary64.valid r = true ->
  Binary64.leb Binary64.zero r = true ->
  Binary64.ltb r Binary64.one = true ->
  Binary64.leb Binary64.onePointFive (Binary64.backoffFactor r) = true /\
  Binary64.leb (Binary64.backoffFactor r) Binary64.twoPointFive = true.
Proof.
  intros Hv H0 H1.
  destruct (random_shape r Hv H0 H1) as [[s ->]|[m [e [-> [Hm He]]]]].
  - split; reflexivity.
  - destruct (add_onePointFive m e Hm He) as [M [E [-> Hcases]]].
    unfold Binary64.onePointFive, Binary64.twoPointFive.
    destruct Hcases as [[-> [Hlo Hhi]]|[-> [Hlo Hhi]]].
    + split; [apply leb_same_exponent|apply leb_lower_exponent]; lia.
    + split; [apply leb_lower_exponent|apply leb_same_exponent]; lia.
Qed.

End Binary64Rounding.

(** C7.  In the doubles the code computes with, for every draw
    [Math.random] can return (a double from [0] up to but less than [1])
    the factor [Math.random() + 1.5] lies in the closed range
    [[1.5, 2.5]]; with [delay * factor] the product as the code computes
    it, the delay becomes that product when jitter is on and the product
    is below [MAX_DELAY], and stays unscaled whenever the product is
    [MAX_DELAY] or more. *)
Theorem backoff_factor_and_scaling :
  forall randomDelay initialDelayMs maxDelayMs retryDelay r,
    Binary64.valid r = true ->
    Binary64.leb Binary64.zero r = true ->
    Binary64.ltb r Binary64.one = true ->
    let f := Binary64.backoffFactor r in
    let d := Binary64.baseDelay initialDelayMs retryDelay in
    let product := Binary64.mul d f in
    let cap := Binary64.MAX_DELAY maxDelayMs in
    Binary64.leb Binary64.onePointFive f = true /\
    Binary64.leb f Binary64.twoPointFive = true /\
    (Js.orB randomDelay true = true ->
     Binary64.ltb product cap = true ->
     Binary64.delayAmount randomDelay initialDelayMs maxDelayMs retryDelay r =
       product) /\
    (Binary64.leb cap product = true ->
     Binary64.delayAmount randomDelay initialDelayMs maxDelayMs retryDelay r =
       d).
Proof.
  intros randomDelay initialDelayMs maxDelayMs retryDelay r Hv H0 H1
         f d product cap.
  destruct (factor_in_closed_range r Hv H0 H1) as [Hlo Hhi].
  split; [exact Hlo|]. split; [exact Hhi|].
  unfold Binary64.delayAmount. fold d f. fold product cap. split.
  - intros Hjitter Hlt. now rewrite Hjitter, Hlt.
  - intros Hge. apply leb_not_ltb in Hge. rewrite Hge.
    now rewrite andb_false_r.
Qed.

Lemma backoff_factor_and_scaling_witness :
  Binary64.leb Binary64.onePointFive
               (Binary64.backoffFactor Binary64.halfDraw) = true /\
  Binary64.leb (Binary64.backoffFactor Binary64.halfDraw)
               Binary64.twoPointFive = true /\
  Binary64.delayAmount (Some false) (Some Binary64.hundred)
                       (Some Binary64.thousand) None Binary64.halfDraw =
    Binary64.twoHundred /\
  Binary64.delayAmount (Some false) (Some Binary64.hundred)
                       (Some Binary64.thousand) (Some Binary64.sixHundred)
                       Binary64.halfDraw =
    Binary64.sixHundred.
Proof.
  pose proof (backoff_factor_and_scaling (Some false) (Some Binary64.hundred)
                (Some Binary64.thousand) None Binary64.halfDraw
                eq_refl eq_refl eq_refl) as [H1 [H2 [H3 _]]].
  pose proof (backoff_factor_and_scaling (Some false) (Some Binary64.hundred)
                (Some Binary64.thousand) (Some Binary64.sixHundred)
                Binary64.halfDraw
                eq_refl eq_refl eq_refl) as [_ [_ [_ H4]]].
  split; [exact H1|]. split; [exact H2|].
  split; [exact (H3 eq_refl eq_refl)|exact (H4 eq_refl)].
Defined.

(** The factor is not always below [2.5]: for the draw
    [0.9999999999999998], a double below [1], the sum
    [Math.random() + 1.5] rounds to [2.5] itself. *)
Lemma backoff_factor_reaches_two_and_a_half :
  Binary64.valid Binary64.lastDraw = true /\
  Binary64.leb Binary64.zero Binary64.lastDraw = true /\
  Binary64.ltb Binary64.lastDraw Binary64.one = true /\
  Binary64.backoffFactor Binary64.lastDraw = Binary64.twoPointFive /\
  Binary64.ltb (Binary64.backoffFactor Binary64.lastDraw)
               Binary64.twoPointFive = false.
Proof. repeat split. Qed.

(** C9.  The base delay of a cycle is [MIN_DELAY] (the [initialDelayMs]
    in force) when the context has no [retryDelay]; the delay the cycle
    computes is the one its timer waits for and the one written into the
    re-submitted operation as [retryDelay]; and the next cycle of that
    operation takes it as its base delay. *)
Theorem retry_delay_persists :
  forall opts random st op,
    (forall n, 0 <= random n < 1) ->
    let r := random (draws st) in
    let op' := retryOperation opts op r in
    let cycle := nextRetryOperation opts random st op in
    (retryDelay (context op) = None ->
     baseDelay opts (context op) = MIN_DELAY opts) /\
    (forall d, initialDelayMs opts = Some d -> ~ d == 0 ->
               MIN_DELAY opts = d) /\
    (forall d, retryDelay (context op) = Some d -> ~ d == 0 ->
               baseDelay opts (context op) = d) /\
    pending (fst cycle) =
      pending st ++ [{| timer := nextTimer st; watchedKey := key op;
                        retryOp := op';
                        wait := delayAmount opts (context op) r |}] /\
    retryDelay (context op') = Some (delayAmount opts (context op) r) /\
    baseDelay opts (context op') = delayAmount opts (context op) r.
Proof.
  intros opts random st op Hrnd r op' cycle.
  split; [|split; [|split; [|split; [|split]]]].
  - intros Hnone. unfold baseDelay. now rewrite Hnone.
  - intros d Hd Hnz. unfold MIN_DELAY. rewrite Hd. now apply orQ_of_truthy.
  - intros d Hd Hnz. unfold baseDelay. rewrite Hd. now apply orQ_of_truthy.
  - reflexivity.
  - reflexivity.
  - subst op'. unfold baseDelay at 1. simpl retryDelay.
    apply orQ_of_truthy, delayAmount_truthy, Hrnd.
Qed.

Lemma retry_delay_persists_witness :
  (forall n, 0 <= lowDraws n < 1) /\
  baseDelay exampleOptions (context (freshQuery 1)) = 100 /\
  MIN_DELAY exampleOptions = 100 /\
  baseDelay exampleOptions (context (retriedQuery 1 1 150)) = 150 /\
  baseDelay exampleOptions
    (context (retryOperation exampleOptions (freshQuery 1) (lowDraws 0))) =
  delayAmount exampleOptions (context (freshQuery 1)) (lowDraws 0).
Proof.
  pose proof (retry_delay_persists exampleOptions lowDraws initialState
                (freshQuery 1) lowDraws_range) as [H1 [H2 [_ [_ [_ H6]]]]].
  pose proof (retry_delay_persists exampleOptions lowDraws initialState
                (retriedQuery 1 1 150) lowDraws_range) as [_ [_ [H3 _]]].
  split; [exact lowDraws_range|].
  split; [apply H1; reflexivity|].
  split; [apply H2; [reflexivity|discriminate]|].
  split; [apply H3; [reflexivity|discriminate]|].
  exact H6.
Defined.

(** ** The result filter *)

(** C8.  A result without error, and a result whose error the retry
    predicate rejects, is emitted as it is and nothing else happens,
    whatever [retryCount] its operation carries. *)
Theorem terminal_result_passes_through :
  forall opts random st res,
    (error res = None \/
     exists e, error res = Some e /\ retryIf opts e = false) ->
    step opts random st (resultArrives res) = (st, [Emit res]).
Proof.
  intros opts random st res H. simpl. unfold onResult.
  destruct H as [-> | [e [-> He]]]; [reflexivity|].
  now rewrite He.
Qed.

Lemma terminal_result_passes_through_witness :
  step defaultOptions lowDraws initialState
       (resultArrives (success (retriedQuery 7 5 150))) =
    (initialState, [Emit (success (retriedQuery 7 5 150))]) /\
  step defaultOptions lowDraws initialState
       (resultArrives (graphQLFailure (retriedQuery 7 5 150))) =
    (initialState, [Emit (graphQLFailure (retriedQuery 7 5 150))]).
Proof.
  split.
  - apply (terminal_result_passes_through defaultOptions lowDraws initialState
             (success (retriedQuery 7 5 150))).
    left. reflexivity.
  - apply (terminal_result_passes_through defaultOptions lowDraws initialState
             (graphQLFailure (retriedQuery 7 5 150))).
    right. eexists. split; reflexivity.
Defined.

Lemma find_fresh_timer (l : list Pending) (x : Pending) (t : nat) :
  Forall (fun p => (timer p < t)%nat) l -> timer x = t ->
  find (fun p => (timer p =? t)%nat) (l ++ [x]) = Some x.
Proof.
  intros Hall Hx. induction Hall as [|p l Hp _ IH]; simpl.
  - subst t. now rewrite Nat.eqb_refl.
  - destruct (Nat.eqb_spec (timer p) t); [lia|exact IH].
Qed.

Lemma filter_fresh_timer (l : list Pending) (t : nat) :
  Forall (fun p => (timer p < t)%nat) l ->
  filter (fun p => negb (timer p =? t)%nat) l = l.
Proof.
  intros Hall. induction Hall as [|p l Hp _ IH]; simpl; [reflexivity|].
  destruct (Nat.eqb_spec (timer p) t); [lia|]. simpl. now rewrite IH.
Qed.

Lemma find_no_timer (l : list Pending) (t : nat) :
  ~ In t (map timer l) -> find (fun p => (timer p =? t)%nat) l = None.
Proof.
  induction l as [|p l IH]; simpl; [reflexivity|].
  intros Hn. destruct (Nat.eqb_spec (timer p) t); [tauto|].
  apply IH. tauto.
Qed.

Lemma wellFormed_timers_below st :
  wellFormed st -> Forall (fun p => (timer p < nextTimer st)%nat) (pending st).
Proof.
  intros [Hall _]. eapply Forall_impl; [|exact Hall]. simpl. tauto.
Qed.

Lemma timer_after_retry opts random st op :
  wellFormed st ->
  onTimer (fst (nextRetryOperation opts random st op)) (nextTimer st) =
  ({| pending := pending st; nextTimer := S (nextTimer st);
      draws := S (draws st) |},
   [Forward (fromRetry (nextTimer st))
            (retryOperation opts op (random (draws st)))]).
Proof.
  intros Hwf. pose proof (wellFormed_timers_below st Hwf) as Hall.
  unfold onTimer, nextRetryOperation. simpl.
  erewrite (find_fresh_timer (pending st) _ (nextTimer st) Hall);
    [|reflexivity].
  simpl. rewrite filter_app. simpl. rewrite Nat.eqb_refl. simpl.
  rewrite app_nil_r. now rewrite (filter_fresh_timer _ _ Hall).
Qed.

(** C6.  Without a [retryIf] option the predicate holds exactly for the
    errors that carry a [networkError]; a result whose error has remote
    entries only is then emitted and not retried.  Under a [retryIf] that
    accepts the error the same result causes a retry (attempts
    permitting): it is not emitted, the attempt is reported, a timer is
    started, one retry is pending with [retryCount] raised by one, and
    when the timer fires the operation is handed to [forward]. *)
Theorem default_retry_predicate :
  forall opts random st res e f,
    retryIfOption opts = None ->
    error res = Some e ->
    networkError e = None ->
    f e = true ->
    (attempts (operation res) < MAX_ATTEMPTS opts - 1)%Z ->
    let custom := setRetryIf opts (Some f) in
    let op := operation res in
    let t := nextTimer st in
    let d := delayAmount custom (context op) (random (draws st)) in
    let op' := retryOperation custom op (random (draws st)) in
    let st' := fst (step custom random st (resultArrives res)) in
    (forall e', retryIf opts e' = true <-> networkError e' <> None) /\
    step opts random st (resultArrives res) = (st, [Emit res]) /\
    step custom random st (resultArrives res) =
      nextRetryOperation custom random st op /\
    ~ In (Emit res) (snd (step custom random st (resultArrives res))) /\
    snd (step custom random st (resultArrives res)) =
      [Debug (retryAttempt op (attempts op + 1)); SetTimeout t d] /\
    pending st' =
      pending st ++ [{| timer := t; watchedKey := key op;
                        retryOp := op'; wait := d |}] /\
    retryCount (context op') = Some (attempts op + 1)%Z /\
    key op' = key op /\
    (reachable custom random st ->
     step custom random st' (delayElapses t) =
       ({| pending := pending st; nextTimer := S t; draws := S (draws st) |},
        [Forward (fromRetry t) op'])).
Proof.
  intros opts random st res e f Hnone Herr Hnet Hf Hlt custom op t d op' st'.
  assert (Hdef : forall e', retryIf opts e' = true <-> networkError e' <> None).
  { intros e'. unfold retryIf. rewrite Hnone. simpl.
    destruct (networkError e'); split; congruence. }
  assert (Hstep : step custom random st (resultArrives res) =
                  nextRetryOperation custom random st op).
  { simpl. unfold onResult. rewrite Herr.
    unfold retryIf at 1. simpl. rewrite Hf. simpl.
    unfold maxNumberAttemptsExceeded.
    change (MAX_ATTEMPTS custom) with (MAX_ATTEMPTS opts).
    fold (attempts (operation res)).
    destruct (Z.geb_spec (attempts (operation res)) (MAX_ATTEMPTS opts - 1));
      [lia|reflexivity]. }
  split; [exact Hdef|]. split; [|split; [exact Hstep|]].
  - simpl. unfold onResult. rewrite Herr.
    destruct (retryIf opts e) eqn:E; [|reflexivity].
    apply Hdef in E. contradiction.
  - subst st'. rewrite Hstep.
    split; [simpl; intros [H|[H|[]]]; discriminate|].
    split; [reflexivity|]. split; [reflexivity|].
    split; [reflexivity|]. split; [reflexivity|].
    intros Hreach. apply timer_after_retry.
    exact (reachable_wf custom random st Hreach).
Qed.

Lemma default_retry_predicate_witness :
  let custom := setRetryIf defaultOptions (Some (fun _ => true)) in
  let res := graphQLFailure (freshQuery 1) in
  let st' := fst (step custom lowDraws initialState (resultArrives res)) in
  step defaultOptions lowDraws initialState (resultArrives res) =
    (initialState, [Emit res]) /\
  snd (step custom lowDraws initialState (resultArrives res)) =
    [Debug (retryAttempt (freshQuery 1) 1);
     SetTimeout 0 (delayAmount custom (context (freshQuery 1)) 0)] /\
  reachable custom lowDraws initialState /\
  step custom lowDraws st' (delayElapses 0) =
    ({| pending := []; nextTimer := 1; draws := 1 |},
     [Forward (fromRetry 0) (retryOperation custom (freshQuery 1) 0)]).
Proof.
  intros custom res st'.
  assert (Hreach : reachable custom lowDraws initialState)
    by (exists []; reflexivity).
  pose proof (default_retry_predicate defaultOptions lowDraws initialState
                res
                {| networkError := None;
                   graphQLErrors := ["Internal server error"%string] |}
                (fun _ => true)
                eq_refl eq_refl eq_refl eq_refl eq_refl)
    as [_ [H2 [_ [_ [H5 [_ [_ [_ H9]]]]]]]].
  split; [exact H2|]. split; [exact H5|]. split; [exact Hreach|].
  exact (H9 Hreach).
Defined.

(** C3.  A result whose error the predicate accepts and whose operation
    has fewer than [MAX_ATTEMPTS - 1] attempts is not emitted; the step
    reports the attempt and starts one timer, adding exactly one pending
    retry, whose operation is the failed one with [retryCount] raised by
    one; when that timer fires, this operation, once, is handed to
    [forward]. *)
Theorem retryable_failure_is_resubmitted :
  forall opts random st res e,
    reachable opts random st ->
    error res = Some e ->
    retryIf opts e = true ->
    (attempts (operation res) < MAX_ATTEMPTS opts - 1)%Z ->
    let op := operation res in
    let t := nextTimer st in
    let d := delayAmount opts (context op) (random (draws st)) in
    let op' := retryOperation opts op (random (draws st)) in
    let st' := fst (step opts random st (resultArrives res)) in
    let acts := snd (step opts random st (resultArrives res)) in
    (forall res', ~ In (Emit res') acts) /\
    acts = [Debug (retryAttempt op (attempts op + 1)); SetTimeout t d] /\
    pending st' =
      pending st ++ [{| timer := t; watchedKey := key op;
                        retryOp := op'; wait := d |}] /\
    retryCount (context op') = Some (attempts op + 1)%Z /\
    key op' = key op /\
    operationName op' = operationName op /\
    payload op' = payload op /\
    meta (context op') = meta (context op) /\
    step opts random st' (delayElapses t) =
      ({| pending := pending st; nextTimer := S t; draws := S (draws st) |},
       [Forward (fromRetry t) op']).
Proof.
  intros opts random st res e Hreach Herr Hif Hlt op t d op' st' acts.
  pose proof (reachable_wf opts random st Hreach) as Hwf.
  assert (Hstep : step opts random st (resultArrives res) =
                  nextRetryOperation opts random st op).
  { destruct (onResult_cases opts random st res)
      as [[_ [H|[e' [H1 H2]]]]|[[_ [_ H]]|[H _]]];
      [congruence | | lia | exact H].
    rewrite Herr in H1. injection H1 as <-. congruence. }
  subst st' acts. rewrite Hstep.
  repeat split; try reflexivity.
  - intros res' [H|[H|[]]]; discriminate.
  - apply timer_after_retry, Hwf.
Qed.

Lemma retryable_failure_is_resubmitted_witness :
  reachable exampleOptions lowDraws initialState /\
  snd (step exampleOptions lowDraws initialState
            (resultArrives (networkFailure (freshQuery 1)))) =
    [Debug (retryAttempt (freshQuery 1) 1);
     SetTimeout 0 (delayAmount exampleOptions (context (freshQuery 1)) 0)] /\
  retryCount (context (retryOperation exampleOptions (freshQuery 1) 0)) =
    Some 1%Z.
Proof.
  assert (Hwf : reachable exampleOptions lowDraws initialState)
    by (exists []; reflexivity).
  pose proof (retryable_failure_is_resubmitted exampleOptions lowDraws
                initialState (networkFailure (freshQuery 1))
                {| networkError := Some "Failed to fetch"%string;
                   graphQLErrors := [] |}
                Hwf eq_refl eq_refl eq_refl) as [_ [H2 [_ [H4 _]]]].
  split; [exact Hwf|]. split; [exact H2|exact H4].
Defined.

(** ** Runs *)

Section Runs.

Variable opts : RetryExchangeOptions.
Variable random : nat -> Q.

Lemma run_cons st ev evs :
  run opts random st (ev :: evs) =
  (fst (run opts random (fst (step opts random st ev)) evs),
   snd (step opts random st ev) ++
   snd (run opts random (fst (step opts random st ev)) evs)).
Proof.
  simpl. destruct (step opts random st ev) as [st1 a1]. simpl.
  now destruct (run opts random st1 evs).
Qed.

(** Every action of a run is an action of one of its steps. *)
Lemma run_action st evs a :
  In a (snd (run opts random st evs)) ->
  exists evs1 ev evs2,
    evs = evs1 ++ ev :: evs2 /\
    In a (snd (step opts random (fst (run opts random st evs1)) ev)).
Proof.
  revert st. induction evs as [|ev evs IH]; intros st; simpl; [tauto|].
  destruct (step opts random st ev) as [st1 a1] eqn:E1.
  destruct (run opts random st1 evs) as [st2 a2] eqn:E2.
  simpl. intros Hin. apply in_app_or in Hin. destruct Hin as [Hin|Hin].
  - exists [], ev, evs. simpl. rewrite E1. auto.
  - specialize (IH st1). rewrite E2 in IH. destruct (IH Hin)
      as [evs1 [ev' [evs2 [-> Hstep]]]].
    exists (ev :: evs1), ev', evs2. split; [reflexivity|].
    simpl. rewrite E1.
    destruct (run opts random st1 evs1) as [st3 a3]. exact Hstep.
Qed.

Lemma run_invariant (P : State -> Prop) :
  (forall st ev, P st -> P (fst (step opts random st ev))) ->
  forall st evs, P st -> P (fst (run opts random st evs)).
Proof.
  intros Hstep st evs. revert st.
  induction evs as [|ev evs IH]; intros st HP; simpl; [exact HP|].
  specialize (Hstep st ev HP).
  destruct (step opts random st ev) as [st1 a1]. simpl in Hstep.
  specialize (IH st1 Hstep).
  destruct (run opts random st1 evs) as [st2 a2]. exact IH.
Qed.

(** The retry path hands over only what is pending. *)
Lemma retry_forward_was_pending st ev t op' :
  In (Forward (fromRetry t) op') (snd (step opts random st ev)) ->
  exists p, In p (pending st) /\ timer p = t /\ retryOp p = op'.
Proof.
  destruct ev as [op|res|t']; simpl.
  - intros [H|[]]. discriminate.
  - destruct (onResult_cases opts random st res)
      as [[-> _]|[[-> _]|[-> _]]]; simpl; intros H;
      repeat (destruct H as [H|H]; try discriminate); contradiction.
  - unfold onTimer. destruct (find _ _) as [p|] eqn:E; simpl; [|tauto].
    intros [H|[]]. injection H as -> <-.
    apply find_some in E. destruct E as [Hin Ht].
    apply Nat.eqb_eq in Ht. eauto.
Qed.

(** A timer that is neither pending nor still to be started stays so. *)
Lemma step_spent t st ev :
  spent t st -> spent t (fst (step opts random st ev)).
Proof.
  intros [Hnp Hlt].
  assert (Hfilter : forall f,
             spent t {| pending := filter f (pending st);
                        nextTimer := nextTimer st; draws := draws st |}).
  { intros f. split; simpl; [|exact Hlt]. unfold isPending. simpl.
    intros Hin. apply Hnp. apply in_map_iff in Hin.
    destruct Hin as [p [Ht Hp]]. apply filter_In in Hp.
    apply in_map_iff. exists p. tauto. }
  destruct ev as [op|res|t']; simpl.
  - apply Hfilter.
  - destruct (onResult_cases opts random st res)
      as [[-> _]|[[-> _]|[-> _]]]; simpl; try (split; assumption).
    split; simpl; [|lia]. unfold isPending. simpl. rewrite map_app.
    intros Hin. apply in_app_or in Hin. destruct Hin as [Hin|[Hin|[]]].
    + exact (Hnp Hin).
    + simpl in Hin. lia.
  - unfold onTimer. destruct (find _ _); simpl; [apply Hfilter|].
    split; assumption.
Qed.

Lemma spent_never_forwarded t st evs op' :
  spent t st ->
  ~ In (Forward (fromRetry t) op') (snd (run opts random st evs)).
Proof.
  intros Hsp Hin. apply run_action in Hin.
  destruct Hin as [evs1 [ev [evs2 [_ Hin]]]].
  apply retry_forward_was_pending in Hin.
  destruct Hin as [p [Hp [Ht _]]].
  pose proof (run_invariant (spent t) (step_spent t) st evs1 Hsp) as [Hnp _].
  apply Hnp. apply in_map_iff. eauto.
Qed.

End Runs.

(** ** The bound on retries *)

Lemma step_timerOf opts random t p st ev :
  timerOf t p st -> timerOf t p (fst (step opts random st ev)).
Proof.
  intros [Hown Hlt].
  assert (Hfilter : forall f,
             timerOf t p {| pending := filter f (pending st);
                            nextTimer := nextTimer st; draws := draws st |}).
  { intros f. split; simpl; [|exact Hlt].
    intros q Hq. apply filter_In in Hq. apply Hown. tauto. }
  destruct ev as [op|res|t']; simpl.
  - apply Hfilter.
  - destruct (onResult_cases opts random st res)
      as [[-> _]|[[-> _]|[-> _]]]; simpl; try (split; assumption).
    split; simpl; [|lia].
    intros q Hq Ht. apply in_app_or in Hq.
    destruct Hq as [Hq|[<-|[]]]; [now apply Hown|].
    simpl in Ht. lia.
  - unfold onTimer. destruct (find _ _); simpl; [apply Hfilter|].
    split; assumption.
Qed.

Lemma timerOf_forward opts random t p st evs op' :
  timerOf t p st ->
  In (Forward (fromRetry t) op') (snd (run opts random st evs)) ->
  op' = retryOp p.
Proof.
  intros Hown Hin. apply run_action in Hin.
  destruct Hin as [evs1 [ev [evs2 [_ Hin]]]].
  apply retry_forward_was_pending in Hin.
  destruct Hin as [q [Hq [Ht <-]]].
  pose proof (run_invariant opts random (timerOf t p)
                (step_timerOf opts random t p) st evs1 Hown) as [Hown' _].
  f_equal. now apply Hown'.
Qed.

Lemma retriedAs_inv opts op op' :
  retriedAs opts op op' ->
  (attempts op < MAX_ATTEMPTS opts - 1)%Z /\
  exists r, op' = retryOperation opts op r.
Proof.
  intros H. destruct H as [random st res t d more op' Hreach Hset Hin].
  pose proof (reachable_wf opts random st Hreach) as Hwf.
  simpl in Hset, Hin.
  destruct (onResult_cases opts random st res)
    as [[E _]|[[E _]|[E [_ Hlt]]]]; rewrite E in Hset, Hin.
  - destruct Hset as [H|[]]. discriminate.
  - destruct Hset as [H|[H|[]]]; discriminate.
  - split; [exact Hlt|].
    simpl in Hset. destruct Hset as [H|[H|[]]]; [discriminate|].
    injection H as <- _.
    exists (random (draws st)).
    set (p := {| timer := nextTimer st;
                 watchedKey := key (operation res);
                 retryOp := retryOperation opts (operation res)
                                           (random (draws st));
                 wait := delayAmount opts (context (operation res))
                                     (random (draws st)) |}).
    change (op' = retryOp p).
    apply (timerOf_forward opts random (nextTimer st) p
             (fst (nextRetryOperation opts random st (operation res)))
             more op'); [|exact Hin].
    split; simpl; [|lia].
    intros q Hq Ht. apply in_app_or in Hq. destruct Hq as [Hq|[<-|[]]].
    + pose proof (wellFormed_timers_below st Hwf) as Hall.
      rewrite Forall_forall in Hall. specialize (Hall q Hq). lia.
    + reflexivity.
Qed.

Lemma attempts_retryOperation opts op r :
  (0 <= attempts op)%Z ->
  attempts (retryOperation opts op r) = (attempts op + 1)%Z.
Proof.
  intros H. unfold attempts at 1. simpl. unfold nextRetryCount.
  fold (attempts op). unfold Js.orZ.
  destruct (Z.eqb_spec (attempts op + 1) 0); [lia|reflexivity].
Qed.

Lemma retriedTimes_count opts n op op' :
  (0 <= attempts op)%Z ->
  retriedTimes opts n op op' ->
  attempts op' = (attempts op + Z.of_nat n)%Z /\
  (n <> 0%nat -> (attempts op + Z.of_nat n <= MAX_ATTEMPTS opts - 1)%Z).
Proof.
  intros H0 H. induction H as [op|n op op1 op2 _ IH Hcycle].
  - split; [lia|congruence].
  - destruct (IH H0) as [Hcount _].
    apply retriedAs_inv in Hcycle. destruct Hcycle as [Hlt [r ->]].
    rewrite attempts_retryOperation by lia.
    split; lia.
Qed.

Lemma step_boundedRetries opts random st ev :
  boundedRetries opts st ->
  boundedRetries opts (fst (step opts random st ev)).
Proof.
  intros Hb.
  assert (Hfilter : forall f n k,
             boundedRetries opts {| pending := filter f (pending st);
                                    nextTimer := n; draws := k |}).
  { intros f n k p Hp. simpl in Hp. apply filter_In in Hp. apply Hb. tauto. }
  destruct ev as [op|res|t]; simpl.
  - apply Hfilter.
  - destruct (onResult_cases opts random st res)
      as [[-> _]|[[-> _]|[-> [_ Hlt]]]]; simpl; try exact Hb.
    intros p Hp. simpl in Hp. apply in_app_or in Hp.
    destruct Hp as [Hp|[<-|[]]]; [now apply Hb|].
    simpl. eexists. split; [reflexivity|].
    unfold nextRetryCount. fold (attempts (operation res)). lia.
  - unfold onTimer. destruct (find _ _); simpl; [apply Hfilter|exact Hb].
Qed.

(** C4.  A result whose error the predicate accepts and whose operation
    has at least [MAX_ATTEMPTS - 1] attempts is emitted to the caller,
    after a [retryExhausted] diagnostic, and no retry comes of it: the
    state is unchanged.  So every operation the retry path ever hands to
    [forward] carries a [retryCount] of at most [MAX_ATTEMPTS - 1], and a
    chain of retry cycles that starts from a count of at least [0] (an
    operation as the caller issues it has none, which reads as [0]) is at
    most [MAX_ATTEMPTS - 1] long. *)
Theorem exhausted_failure_is_delivered :
  forall opts random st res e,
    error res = Some e ->
    retryIf opts e = true ->
    (attempts (operation res) >= MAX_ATTEMPTS opts - 1)%Z ->
    step opts random st (resultArrives res) =
      (st, [Debug (retryExhausted (operation res)); Emit res]) /\
    (forall op', ~ retriedAs opts (operation res) op') /\
    (forall evs t op',
        In (Forward (fromRetry t) op')
           (snd (run opts random initialState evs)) ->
        exists c, retryCount (context op') = Some c /\
                  (c <= MAX_ATTEMPTS opts - 1)%Z) /\
    (forall n op op',
        (0 <= attempts op)%Z -> retriedTimes opts n op op' -> n <> 0%nat ->
        (Z.of_nat n <= MAX_ATTEMPTS opts - 1)%Z).
Proof.
  intros opts random st res e Herr Hif Hge.
  split; [|split; [|split]].
  - destruct (onResult_cases opts random st res)
      as [[_ [H|[e' [H1 H2]]]]|[[H _]|[_ [_ H]]]];
      [congruence | | exact H | lia].
    rewrite Herr in H1. injection H1 as <-. congruence.
  - intros op' H. apply retriedAs_inv in H. lia.
  - intros evs t op' Hin. apply run_action in Hin.
    destruct Hin as [evs1 [ev [evs2 [_ Hin]]]].
    apply retry_forward_was_pending in Hin.
    destruct Hin as [p [Hp [_ <-]]].
    assert (Hb : boundedRetries opts
                   (fst (run opts random initialState evs1))).
    { apply (run_invariant opts random (boundedRetries opts)).
      - intros st0 ev0. apply step_boundedRetries.
      - intros p0 []. }
    exact (Hb p Hp).
  - intros n op op' H0 Hchain Hn.
    destruct (retriedTimes_count opts n op op' H0 Hchain) as [_ H].
    specialize (H Hn). lia.
Qed.

Lemma exhausted_failure_is_delivered_witness :
  step exampleOptions lowDraws initialState
       (resultArrives (networkFailure (retriedQuery 1 2 225))) =
    (initialState,
     [Debug (retryExhausted (retriedQuery 1 2 225));
      Emit (networkFailure (retriedQuery 1 2 225))]) /\
  (1 <= MAX_ATTEMPTS exampleOptions - 1)%Z.
Proof.
  pose proof (exhausted_failure_is_delivered exampleOptions lowDraws
                initialState (networkFailure (retriedQuery 1 2 225))
                {| networkError := Some "Failed to fetch"%string;
                   graphQLErrors := [] |}
                eq_refl eq_refl) as H.
  destruct H as [H1 [_ [_ H4]]]; [discriminate|].
  split; [exact H1|].
  apply (H4 1%nat (freshQuery 1)
            (retryOperation exampleOptions (freshQuery 1) 0)).
  - discriminate.
  - apply retried_more with (op1 := freshQuery 1); [constructor|].
    apply (retried_cycle exampleOptions lowDraws initialState
                         (networkFailure (freshQuery 1)) 0%nat
                         (firstWait lowDraws) [delayElapses 0%nat]).
    + exists []. reflexivity.
    + right. left. reflexivity.
    + left. reflexivity.
  - discriminate.
Defined.

(** ** The race between the delay and a superseding operation *)

Lemma pending_unique st p p' :
  wellFormed st -> In p (pending st) -> In p' (pending st) ->
  timer p' = timer p -> p' = p.
Proof.
  intros [_ Hnd]. induction (pending st) as [|x l IH]; simpl; [tauto|].
  inversion Hnd as [|? ? Hnotin Hnd']; subst.
  intros [->|Hp] [->|Hp'] Ht; auto.
  - exfalso. apply Hnotin. rewrite <- Ht. now apply in_map.
  - exfalso. apply Hnotin. rewrite Ht. now apply in_map.
Qed.

Lemma find_pending st p :
  wellFormed st -> In p (pending st) ->
  find (fun q => (timer q =? timer p)%nat) (pending st) = Some p.
Proof.
  intros Hwf Hp.
  destruct (find (fun q => (timer q =? timer p)%nat) (pending st))
    as [q|] eqn:E.
  - apply find_some in E. destruct E as [Hq Ht]. apply Nat.eqb_eq in Ht.
    f_equal. now apply (pending_unique st p q Hwf).
  - exfalso. apply (find_none _ _ E) in Hp. now rewrite Nat.eqb_refl in Hp.
Qed.

Lemma supersedes_iff k op :
  supersedes k op = true <->
  (operationName op = query \/ operationName op = teardown) /\ key op = k.
Proof.
  unfold supersedes. rewrite andb_true_iff, Z.eqb_eq.
  destruct (operationName op); intuition congruence.
Qed.

Lemma superseded_is_spent st p op :
  wellFormed st -> In p (pending st) ->
  supersedes (watchedKey p) op = true ->
  spent (timer p) (fst (onOperation st op)).
Proof.
  intros Hwf Hp Hsup. split; simpl.
  - unfold isPending. simpl. intros Hin. apply in_map_iff in Hin.
    destruct Hin as [q [Ht Hq]]. apply filter_In in Hq.
    destruct Hq as [Hq Hkeep].
    assert (q = p) by now apply (pending_unique st p q Hwf).
    subst q. rewrite Hsup in Hkeep. discriminate.
  - pose proof (wellFormed_timers_below st Hwf) as Hall.
    rewrite Forall_forall in Hall. now apply Hall.
Qed.

Lemma elapsed_is_spent st p :
  wellFormed st -> In p (pending st) ->
  onTimer st (timer p) =
    ({| pending := filter (fun q => negb (timer q =? timer p)%nat) (pending st);
        nextTimer := nextTimer st; draws := draws st |},
     [Forward (fromRetry (timer p)) (retryOp p)]) /\
  spent (timer p) (fst (onTimer st (timer p))).
Proof.
  intros Hwf Hp. unfold onTimer. rewrite (find_pending st p Hwf Hp).
  split; [reflexivity|]. split; simpl.
  - unfold isPending. simpl. intros Hin. apply in_map_iff in Hin.
    destruct Hin as [q [Ht Hq]]. apply filter_In in Hq.
    destruct Hq as [_ Hkeep]. rewrite Ht, Nat.eqb_refl in Hkeep. discriminate.
  - pose proof (wellFormed_timers_below st Hwf) as Hall.
    rewrite Forall_forall in Hall. now apply Hall.
Qed.

Lemma spent_timer_is_silent st t :
  spent t st -> onTimer st t = (st, []).
Proof.
  intros [Hnp _]. unfold onTimer. now rewrite (find_no_timer _ _ Hnp).
Qed.

(** The caller is only ever given what the executor pushed. *)
Lemma emitted_was_pushed opts random st evs res :
  In (Emit res) (snd (run opts random st evs)) -> In (resultArrives res) evs.
Proof.
  intros Hin. apply run_action in Hin.
  destruct Hin as [evs1 [ev [evs2 [-> Hin]]]].
  apply in_or_app. right. left.
  destruct ev as [op|res0|t]; simpl in Hin.
  - destruct Hin as [H|[]]. discriminate.
  - destruct (onResult_cases opts random (fst (run opts random st evs1)) res0)
      as [[E _]|[[E _]|[E _]]]; rewrite E in Hin; simpl in Hin;
      repeat (destruct Hin as [Hin|Hin]; try discriminate);
      try contradiction; congruence.
  - unfold onTimer in Hin. destruct (find _ _); simpl in Hin.
    + destruct Hin as [H|[]]. discriminate.
    + contradiction.
Qed.

(** C5.  A retry of key [k] is pending.  If an operation of key [k] and
    kind [query] or [teardown] arrives first, the arrival forwards that
    operation and nothing else, the retry is discarded, and whatever
    happens afterwards (its timer firing included) the retry is never
    handed to [forward]; the caller is given only results the executor
    pushes, and the executor never sees the retry.  If the timer fires
    first, the retry is handed to [forward], and an operation of key [k]
    that arrives later is forwarded without touching it. *)
Theorem superseding_operation_races_delay :
  forall opts random st p op,
    reachable opts random st ->
    In p (pending st) ->
    key op = key (retryOp p) ->
    operationName op = query \/ operationName op = teardown ->
    let st1 := fst (step opts random st (opArrives op)) in
    let st2 := fst (step opts random st (delayElapses (timer p))) in
    (snd (step opts random st (opArrives op)) = [Forward fromOps op] /\
     ~ isPending (timer p) st1 /\
     step opts random st1 (delayElapses (timer p)) = (st1, []) /\
     (forall evs op',
         ~ In (Forward (fromRetry (timer p)) op')
              (snd (run opts random st1 evs))) /\
     (forall evs res,
         In (Emit res) (snd (run opts random st1 evs)) ->
         In (resultArrives res) evs)) /\
    (snd (step opts random st (delayElapses (timer p))) =
       [Forward (fromRetry (timer p)) (retryOp p)] /\
     ~ isPending (timer p) st2 /\
     snd (step opts random st2 (opArrives op)) = [Forward fromOps op]).
Proof.
  intros opts random st p op Hreach Hp Hkey Hkind st1 st2.
  pose proof (reachable_wf opts random st Hreach) as Hwf.
  assert (Hsup : supersedes (watchedKey p) op = true).
  { apply supersedes_iff. split; [exact Hkind|].
    destruct Hwf as [Hall _]. rewrite Forall_forall in Hall.
    destruct (Hall p Hp) as [_ ->]. exact Hkey. }
  pose proof (superseded_is_spent st p op Hwf Hp Hsup) as Hspent1.
  destruct (elapsed_is_spent st p Hwf Hp) as [Hfire Hspent2].
  split; [split; [|split; [|split; [|split]]] | split; [|split]].
  - reflexivity.
  - exact (proj1 Hspent1).
  - simpl. now apply spent_timer_is_silent.
  - intros evs op'. now apply spent_never_forwarded.
  - intros evs res. apply emitted_was_pushed.
  - simpl. now rewrite Hfire.
  - exact (proj1 Hspent2).
  - reflexivity.
Qed.

Lemma superseding_operation_races_delay_witness :
  let st := fst (run exampleOptions lowDraws initialState oneFailure) in
  let st1 := fst (step exampleOptions lowDraws st (opArrives (teardownOf 1))) in
  reachable exampleOptions lowDraws st /\
  In (firstRetry lowDraws) (pending st) /\
  step exampleOptions lowDraws st1 (delayElapses 0) = (st1, []) /\
  snd (step exampleOptions lowDraws st (delayElapses 0)) =
    [Forward (fromRetry 0) (retryOp (firstRetry lowDraws))].
Proof.
  intros st st1.
  assert (Hreach : reachable exampleOptions lowDraws st)
    by (exists oneFailure; reflexivity).
  assert (Hp : In (firstRetry lowDraws) (pending st))
    by (left; reflexivity).
  pose proof (superseding_operation_races_delay exampleOptions lowDraws st
                (firstRetry lowDraws) (teardownOf 1) Hreach Hp eq_refl
                (or_intror eq_refl)) as [[_ [_ [H3 _]]] [H4 _]].
  split; [exact Hreach|]. split; [exact Hp|]. split; [exact H3|exact H4].
Defined.

(** ** Diagnostics *)

Lemma reported_later opts acts more p :
  reported opts acts p -> reported opts (acts ++ more) p.
Proof.
  intros [op [r [before [after [-> H]]]]].
  exists op, r, before, (after ++ more). split; [|exact H].
  rewrite <- app_assoc. reflexivity.
Qed.

Lemma pending_after_step opts random st ev p :
  In p (pending (fst (step opts random st ev))) ->
  In p (pending st) \/
  (exists res,
      ev = resultArrives res /\
      step opts random st ev =
        nextRetryOperation opts random st (operation res) /\
      p = {| timer := nextTimer st; watchedKey := key (operation res);
             retryOp := retryOperation opts (operation res)
                                       (random (draws st));
             wait := delayAmount opts (context (operation res))
                                 (random (draws st)) |}).
Proof.
  destruct ev as [op|res|t]; simpl.
  - intros Hp. apply filter_In in Hp. tauto.
  - destruct (onResult_cases opts random st res)
      as [[E _]|[[E _]|[E _]]]; rewrite E; simpl; auto.
    intros Hp. apply in_app_or in Hp. destruct Hp as [Hp|[<-|[]]]; [auto|].
    right. exists res. auto.
  - unfold onTimer. destruct (find _ _); simpl; [|auto].
    intros Hp. apply filter_In in Hp. tauto.
Qed.

Lemma pending_reported opts random evs p :
  In p (pending (fst (run opts random initialState evs))) ->
  reported opts (snd (run opts random initialState evs)) p.
Proof.
  revert p. induction evs as [|ev evs IH] using rev_ind; intros p; simpl.
  - tauto.
  - rewrite run_app. simpl.
    destruct (run opts random initialState evs) as [st1 a1]. simpl in IH.
    destruct (step opts random st1 ev) as [st2 a2] eqn:E. simpl.
    intros Hp. rewrite app_nil_r.
    assert (Hp' : In p (pending (fst (step opts random st1 ev))))
      by now rewrite E.
    apply pending_after_step in Hp'.
    destruct Hp' as [Hold | [res [-> [Hstep ->]]]].
    + apply reported_later. now apply IH.
    + rewrite Hstep in E. unfold nextRetryOperation in E.
      injection E as _ <-.
      exists (operation res), (random (draws st1)), a1, [].
      simpl. repeat split; reflexivity.
Qed.

(** C10.  Whenever a retry is pending, its [retryAttempt] diagnostic is
    already among the actions performed, right before the start of its
    timer and so before the delay; if an operation that supersedes it
    arrives now, the retry is never handed to [forward], whatever happens
    afterwards, although its attempt was reported. *)
Theorem retry_attempt_reported_before_delay :
  forall opts random evs p op,
    let st := fst (run opts random initialState evs) in
    let acts := snd (run opts random initialState evs) in
    In p (pending st) ->
    key op = key (retryOp p) ->
    operationName op = query \/ operationName op = teardown ->
    (exists failed r before after,
        acts = before ++
               Debug (retryAttempt failed (attempts failed + 1)) ::
               SetTimeout (timer p) (wait p) :: after /\
        key failed = key (retryOp p) /\
        retryOp p = retryOperation opts failed r) /\
    (forall more op',
        ~ In (Forward (fromRetry (timer p)) op')
             (snd (run opts random st (opArrives op :: more)))).
Proof.
  intros opts random evs p op st acts Hp Hkey Hkind.
  assert (Hwf : wellFormed st)
    by (apply (reachable_wf opts random); exists evs; reflexivity).
  assert (Hwatch : watchedKey p = key (retryOp p)).
  { destruct Hwf as [Hall _]. rewrite Forall_forall in Hall.
    now destruct (Hall p Hp). }
  split.
  - destruct (pending_reported opts random evs p Hp)
      as [failed [r [before [after [Hacts [Hk Hop]]]]]].
    exists failed, r, before, after.
    split; [exact Hacts|]. split; [congruence|exact Hop].
  - intros more op' Hin.
    rewrite run_cons in Hin. cbn [snd] in Hin.
    apply in_app_or in Hin. destruct Hin as [[H|[]]|Hin]; [discriminate|].
    assert (Hsup : supersedes (watchedKey p) op = true)
      by (apply supersedes_iff; split; congruence).
    pose proof (superseded_is_spent st p op Hwf Hp Hsup) as Hspent.
    exact (spent_never_forwarded opts random _ _ more op' Hspent Hin).
Qed.

Lemma retry_attempt_reported_before_delay_witness :
  let st := fst (run exampleOptions lowDraws initialState oneFailure) in
  In (firstRetry lowDraws) (pending st) /\
  (exists failed r before after,
      snd (run exampleOptions lowDraws initialState oneFailure) =
        before ++
        Debug (retryAttempt failed (attempts failed + 1)) ::
        SetTimeout 0 (wait (firstRetry lowDraws)) :: after /\
      key failed = 1%Z /\
      retryOp (firstRetry lowDraws) =
        retryOperation exampleOptions failed r) /\
  ~ In (Forward (fromRetry 0) (retryOp (firstRetry lowDraws)))
       (snd (run exampleOptions lowDraws st
                 [opArrives (teardownOf 1); delayElapses 0])).
Proof.
  intros st.
  assert (Hp : In (firstRetry lowDraws) (pending st)) by (left; reflexivity).
  pose proof (retry_attempt_reported_before_delay exampleOptions lowDraws
                oneFailure (firstRetry lowDraws) (teardownOf 1)
                Hp eq_refl (or_intror eq_refl)) as [H1 H2].
  split; [exact Hp|]. split; [exact H1|].
  exact (H2 [delayElapses 0] (retryOp (firstRetry lowDraws))).
Defined.

(** ** The worked example *)

(** Whatever [Math.random] returns, the two delays of the worked example
    are scaled: neither is the 100ms the options ask for. *)
Lemma example_delays_are_scaled (random : nat -> Q) :
  (forall n, 0 <= random n < 1) ->
  run exampleOptions random initialState (threeFailures random) =
    ({| pending := []; nextTimer := 2; draws := 2 |},
     [Forward fromOps (freshQuery 1);
      Debug (retryAttempt (freshQuery 1) 1);
      SetTimeout 0 (firstWait random);
      Forward (fromRetry 0) (secondAttempt random);
      Debug (retryAttempt (secondAttempt random) 2);
      SetTimeout 1 (secondWait random);
      Forward (fromRetry 1) (thirdAttempt random);
      Debug (retryExhausted (thirdAttempt random));
      Emit (networkFailure (thirdAttempt random))]) /\
  (150 <= firstWait random /\ firstWait random < 250) /\
  (225 <= secondWait random /\ secondWait random < 625).
Proof.
  intros Hrnd.
  destruct (backoffFactor_range (random 0%nat) (Hrnd 0%nat)) as [Hlo0 Hhi0].
  destruct (backoffFactor_range (random 1%nat) (Hrnd 1%nat)) as [Hlo1 Hhi1].
  assert (H1 : firstWait random = 100 * backoffFactor (random 0%nat)).
  { unfold firstWait. rewrite delayAmount_cases.
    change (baseDelay exampleOptions (context (freshQuery 1))) with 100.
    change (MAX_DELAY exampleOptions) with 1000.
    assert (Hlt : 100 * backoffFactor (random 0%nat) < 1000) by lra.
    apply ltQ_true in Hlt. now rewrite Hlt. }
  assert (B1 : 150 <= firstWait random /\ firstWait random < 250)
    by (rewrite H1; split; lra).
  assert (H2 : secondWait random =
               firstWait random * backoffFactor (random 1%nat)).
  { unfold secondWait. rewrite delayAmount_cases.
    assert (Hbase : baseDelay exampleOptions (context (secondAttempt random))
                    = firstWait random).
    { unfold baseDelay. simpl retryDelay. fold (firstWait random).
      apply orQ_of_truthy. intro Hz. rewrite Hz in B1.
      destruct B1 as [B1 _]. revert B1. apply Qlt_not_le. reflexivity. }
    rewrite Hbase. change (MAX_DELAY exampleOptions) with 1000.
    assert (Hlt : firstWait random * backoffFactor (random 1%nat) < 1000)
      by nra.
    apply ltQ_true in Hlt. now rewrite Hlt. }
  split; [reflexivity|]. split; [exact B1|].
  rewrite H2. split; nra.
Qed.

(** C1.  The worked example, with [Math.random] returning [0] each time:
    two retry cycles, then the third failure is emitted after a
    [retryExhausted] diagnostic and nothing is left pending; but the two
    timers wait for 150ms and 225ms, not for 100ms each, although the
    options say [randomDelay: false]. *)
Theorem example_three_failures :
  run exampleOptions lowDraws initialState (threeFailures lowDraws) =
    ({| pending := []; nextTimer := 2; draws := 2 |},
     [Forward fromOps (freshQuery 1);
      Debug (retryAttempt (freshQuery 1) 1);
      SetTimeout 0 (firstWait lowDraws);
      Forward (fromRetry 0) (secondAttempt lowDraws);
      Debug (retryAttempt (secondAttempt lowDraws) 2);
      SetTimeout 1 (secondWait lowDraws);
      Forward (fromRetry 1) (thirdAttempt lowDraws);
      Debug (retryExhausted (thirdAttempt lowDraws));
      Emit (networkFailure (thirdAttempt lowDraws))]) /\
  firstWait lowDraws == 150 /\
  secondWait lowDraws == 225 /\
  ~ firstWait lowDraws == 100 /\
  ~ secondWait lowDraws == 100.
Proof.
  split; [reflexivity|]. repeat split; vm_compute; congruence.
Qed.

(** ** Further properties of the exchange *)

(** *** The numeric options *)

Lemma step_same_constants o1 o2 random st ev :
  MIN_DELAY o1 = MIN_DELAY o2 ->
  MAX_DELAY o1 = MAX_DELAY o2 ->
  MAX_ATTEMPTS o1 = MAX_ATTEMPTS o2 ->
  retryIfOption o1 = retryIfOption o2 ->
  step o1 random st ev = step o2 random st ev.
Proof.
  intros Hmin Hmax Hatt Hif.
  assert (Hd : forall ctx r, delayAmount o1 ctx r = delayAmount o2 ctx r).
  { intros ctx r. rewrite !delayAmount_cases. unfold baseDelay.
    now rewrite Hmin, Hmax. }
  destruct ev as [op|res|t]; simpl; try reflexivity.
  unfold onResult, retryIf, maxNumberAttemptsExceeded. rewrite Hif, Hatt.
  destruct (error res) as [e|]; [|reflexivity].
  destruct (negb _); [reflexivity|].
  destruct (negb _); [|reflexivity].
  unfold nextRetryOperation, retryOperation. now rewrite !Hd.
Qed.

(** X1.  An [initialDelayMs], [maxDelayMs] or [maxNumberAttempts] of [0]
    is taken for a missing option: the exchange takes the same step on
    every event as with the option left out, so the defaults 1000, 15000
    and 2 apply. *)
Theorem zero_option_is_unset :
  forall opts random st ev (z : Q),
    z == 0 ->
    step (setInitialDelayMs opts (Some z)) random st ev =
      step (setInitialDelayMs opts None) random st ev /\
    step (setMaxDelayMs opts (Some z)) random st ev =
      step (setMaxDelayMs opts None) random st ev /\
    step (setMaxNumberAttempts opts (Some 0%Z)) random st ev =
      step (setMaxNumberAttempts opts None) random st ev /\
    MIN_DELAY (setInitialDelayMs opts (Some z)) = 1000 /\
    MAX_DELAY (setMaxDelayMs opts (Some z)) = 15000 /\
    MAX_ATTEMPTS (setMaxNumberAttempts opts (Some 0%Z)) = 2%Z.
Proof.
  intros opts random st ev z Hz. apply Qeq_bool_iff in Hz.
  assert (Hmin : MIN_DELAY (setInitialDelayMs opts (Some z)) = 1000)
    by (unfold MIN_DELAY, Js.orQ; simpl; now rewrite Hz).
  assert (Hmax : MAX_DELAY (setMaxDelayMs opts (Some z)) = 15000)
    by (unfold MAX_DELAY, Js.orQ; simpl; now rewrite Hz).
  split; [|split; [|split; [|split; [|split]]]];
    try assumption; try reflexivity.
  - apply step_same_constants; try reflexivity. exact Hmin.
  - apply step_same_constants; try reflexivity. exact Hmax.
Qed.

Lemma zero_option_is_unset_witness :
  0 == 0 /\
  step (setInitialDelayMs exampleOptions (Some 0)) lowDraws initialState
       (resultArrives (networkFailure (freshQuery 1))) =
  step (setInitialDelayMs exampleOptions None) lowDraws initialState
       (resultArrives (networkFailure (freshQuery 1))).
Proof.
  split; [reflexivity|].
  apply (zero_option_is_unset exampleOptions lowDraws initialState
           (resultArrives (networkFailure (freshQuery 1))) 0).
  reflexivity.
Defined.

(** *** What a run shows to the caller, to the executor and to the log *)

Section Observations.

Variable opts : RetryExchangeOptions.
Variable random : nat -> Q.

Lemma onResult_verdict st res :
  onResult opts random st res =
  if withheld opts res
  then nextRetryOperation opts random st (operation res)
  else (st, map Debug (diagnosticOf opts res) ++ [Emit res]).
Proof.
  unfold onResult, withheld, diagnosticOf.
  destruct (error res) as [e|]; [|reflexivity].
  destruct (retryIf opts e); simpl; [|reflexivity].
  now destruct (maxNumberAttemptsExceeded opts res).
Qed.

Lemma withheld_diagnostic res :
  withheld opts res = true ->
  diagnosticOf opts res =
  [retryAttempt (operation res) (nextRetryCount (context (operation res)))].
Proof.
  unfold withheld, diagnosticOf. destruct (error res) as [e|]; [|discriminate].
  destruct (retryIf opts e); [|discriminate].
  now destruct (maxNumberAttemptsExceeded opts res).
Qed.

Lemma emitted_app a b : emitted (a ++ b) = emitted a ++ emitted b.
Proof. apply flat_map_app. Qed.

Lemma diagnostics_app a b :
  diagnostics (a ++ b) = diagnostics a ++ diagnostics b.
Proof. apply flat_map_app. Qed.

Lemma forwardedOps_app a b :
  forwardedOps (a ++ b) = forwardedOps a ++ forwardedOps b.
Proof. apply flat_map_app. Qed.

Lemma releasedTimers_app a b :
  releasedTimers (a ++ b) = releasedTimers a ++ releasedTimers b.
Proof. apply flat_map_app. Qed.

Lemma diagnostics_map_Debug l : diagnostics (map Debug l) = l.
Proof. induction l as [|d l IH]; simpl; [reflexivity|now rewrite IH]. Qed.

Lemma emitted_map_Debug l : emitted (map Debug l) = [].
Proof. induction l as [|d l IH]; simpl; [reflexivity|exact IH]. Qed.

Lemma forwardedOps_map_Debug l : forwardedOps (map Debug l) = [].
Proof. induction l as [|d l IH]; simpl; [reflexivity|exact IH]. Qed.

Lemma step_emitted st ev :
  emitted (snd (step opts random st ev)) =
  filter (fun res => negb (withheld opts res)) (pushed [ev]).
Proof.
  destruct ev as [op|res|t]; simpl; try reflexivity.
  - rewrite onResult_verdict. destruct (withheld opts res); simpl;
      [reflexivity|].
    now rewrite emitted_app, emitted_map_Debug.
  - unfold onTimer. now destruct (find _ _).
Qed.

Lemma step_diagnostics st ev :
  diagnostics (snd (step opts random st ev)) =
  flat_map (diagnosticOf opts) (pushed [ev]).
Proof.
  destruct ev as [op|res|t]; simpl; try reflexivity.
  - rewrite onResult_verdict, app_nil_r.
    destruct (withheld opts res) eqn:E; simpl.
    + now rewrite withheld_diagnostic.
    + rewrite diagnostics_app, diagnostics_map_Debug. apply app_nil_r.
  - unfold onTimer. now destruct (find _ _).
Qed.

Lemma step_forwardedOps st ev :
  forwardedOps (snd (step opts random st ev)) = arrived [ev].
Proof.
  destruct ev as [op|res|t]; simpl; try reflexivity.
  - rewrite onResult_verdict. destruct (withheld opts res); simpl;
      [reflexivity|].
    now rewrite forwardedOps_app, forwardedOps_map_Debug.
  - unfold onTimer. now destruct (find _ _).
Qed.

End Observations.

(** X2.  The results the caller is given are the results the executor
    pushed, in the same order and each once, less those the filter
    withholds for a retry; whether a result is withheld depends on the
    result and the options only, not on what is pending or on what
    happened before. *)
Theorem emitted_results_are_the_unwithheld :
  forall opts random st evs,
    emitted (snd (run opts random st evs)) =
    filter (fun res => negb (withheld opts res)) (pushed evs).
Proof.
  intros opts random st evs. revert st.
  induction evs as [|ev evs IH]; intros st; [reflexivity|].
  rewrite run_cons. cbn [snd]. rewrite emitted_app, IH, step_emitted.
  change (ev :: evs) with ([ev] ++ evs).
  unfold pushed. rewrite (flat_map_app _ [ev] evs). now rewrite filter_app.
Qed.

(** X3.  Every operation that arrives on [ops$] is handed to [forward]
    once, as it is and in arrival order, teardowns and superseding queries
    included, whatever retries are pending. *)
Theorem arrivals_are_forwarded_in_order :
  forall opts random st evs,
    forwardedOps (snd (run opts random st evs)) = arrived evs.
Proof.
  intros opts random st evs. revert st.
  induction evs as [|ev evs IH]; intros st; [reflexivity|].
  rewrite run_cons. cbn [snd].
  rewrite forwardedOps_app, IH, step_forwardedOps.
  change (ev :: evs) with ([ev] ++ evs).
  unfold arrived. now rewrite (flat_map_app _ [ev] evs).
Qed.

(** X4.  The diagnostics of a run are caused by the pushed results alone,
    in their order: a [retryAttempt] with the next attempt count for each
    withheld result, a [retryExhausted] for each failure the predicate
    accepts but the attempt bound stops, and none for any other result,
    for an operation that arrives or for a timer that fires. *)
Theorem diagnostics_follow_results :
  forall opts random st evs,
    diagnostics (snd (run opts random st evs)) =
    flat_map (diagnosticOf opts) (pushed evs).
Proof.
  intros opts random st evs. revert st.
  induction evs as [|ev evs IH]; intros st; [reflexivity|].
  rewrite run_cons. cbn [snd].
  rewrite diagnostics_app, IH, step_diagnostics.
  change (ev :: evs) with ([ev] ++ evs).
  unfold pushed. rewrite (flat_map_app _ [ev] evs).
  now rewrite flat_map_app.
Qed.

(** *** What does not discard a pending retry *)

(** X5.  A pending retry is discarded only by a query or a teardown of its
    own key: a mutation or subscription of that key, and any operation of
    another key, is forwarded and leaves the retry pending, and the retry
    is handed to [forward] when its timer fires afterwards. *)
Theorem other_operation_keeps_retry :
  forall opts random st p op,
    reachable opts random st ->
    In p (pending st) ->
    key op <> key (retryOp p) \/
    operationName op = mutation \/ operationName op = subscription ->
    let st1 := fst (step opts random st (opArrives op)) in
    snd (step opts random st (opArrives op)) = [Forward fromOps op] /\
    In p (pending st1) /\
    snd (step opts random st1 (delayElapses (timer p))) =
      [Forward (fromRetry (timer p)) (retryOp p)].
Proof.
  intros opts random st p op Hreach Hp Hother st1.
  pose proof (reachable_wf opts random st Hreach) as Hwf.
  assert (Hwf1 : wellFormed st1) by (apply step_wf, Hwf).
  assert (Hno : supersedes (watchedKey p) op = false).
  { destruct (supersedes (watchedKey p) op) eqn:E; [|reflexivity].
    apply supersedes_iff in E. destruct E as [Hkind Hkey].
    destruct Hwf as [Hall _]. rewrite Forall_forall in Hall.
    destruct (Hall p Hp) as [_ Hw]. rewrite Hw in Hkey.
    destruct Hother as [H|[H|H]]; [contradiction| |];
      rewrite H in Hkind; destruct Hkind; discriminate. }
  assert (Hp1 : In p (pending st1)).
  { subst st1. simpl. apply filter_In. split; [exact Hp|].
    now rewrite Hno. }
  split; [reflexivity|]. split; [exact Hp1|].
  simpl. now rewrite (proj1 (elapsed_is_spent st1 p Hwf1 Hp1)).
Qed.

Lemma other_operation_keeps_retry_witness :
  let st := fst (run exampleOptions lowDraws initialState oneFailure) in
  let st1 := fst (step exampleOptions lowDraws st (opArrives (mutationOf 1))) in
  reachable exampleOptions lowDraws st /\
  In (firstRetry lowDraws) (pending st1) /\
  snd (step exampleOptions lowDraws st1 (delayElapses 0)) =
    [Forward (fromRetry 0) (retryOp (firstRetry lowDraws))].
Proof.
  intros st st1.
  assert (Hreach : reachable exampleOptions lowDraws st)
    by (exists oneFailure; reflexivity).
  assert (Hp : In (firstRetry lowDraws) (pending st)) by (left; reflexivity).
  pose proof (other_operation_keeps_retry exampleOptions lowDraws st
                (firstRetry lowDraws) (mutationOf 1) Hreach Hp
                (or_intror (or_introl eq_refl))) as [_ [H2 H3]].
  split; [exact Hreach|]. split; [exact H2|exact H3].
Defined.

(** X6.  A retry that is released does not count as a fresh query of its
    key: the other retries pending at that moment, those of the same key
    included, stay pending and are released by their own timers. *)
Theorem released_retry_keeps_others :
  forall opts random st p q,
    reachable opts random st ->
    In p (pending st) ->
    In q (pending st) ->
    q <> p ->
    let st1 := fst (step opts random st (delayElapses (timer p))) in
    In q (pending st1) /\
    snd (step opts random st1 (delayElapses (timer q))) =
      [Forward (fromRetry (timer q)) (retryOp q)].
Proof.
  intros opts random st p q Hreach Hp Hq Hneq st1.
  pose proof (reachable_wf opts random st Hreach) as Hwf.
  assert (Hwf1 : wellFormed st1) by (apply step_wf, Hwf).
  assert (Hq1 : In q (pending st1)).
  { subst st1. simpl. rewrite (proj1 (elapsed_is_spent st p Hwf Hp)). simpl.
    apply filter_In. split; [exact Hq|].
    destruct (Nat.eqb_spec (timer q) (timer p)) as [Ht|]; [|reflexivity].
    exfalso. apply Hneq. now apply (pending_unique st p q Hwf). }
  split; [exact Hq1|].
  simpl. now rewrite (proj1 (elapsed_is_spent st1 q Hwf1 Hq1)).
Qed.

Lemma released_retry_keeps_others_witness :
  let st := fst (run exampleOptions lowDraws initialState twoFailures) in
  let st1 := fst (step exampleOptions lowDraws st (delayElapses 0)) in
  reachable exampleOptions lowDraws st /\
  secondRetry lowDraws <> firstRetry lowDraws /\
  In (secondRetry lowDraws) (pending st1) /\
  snd (step exampleOptions lowDraws st1 (delayElapses 1)) =
    [Forward (fromRetry 1) (retryOp (secondRetry lowDraws))].
Proof.
  intros st st1.
  assert (Hreach : reachable exampleOptions lowDraws st)
    by (exists twoFailures; reflexivity).
  assert (Hp : In (firstRetry lowDraws) (pending st)) by (left; reflexivity).
  assert (Hq : In (secondRetry lowDraws) (pending st))
    by (right; left; reflexivity).
  assert (Hneq : secondRetry lowDraws <> firstRetry lowDraws)
    by (intro H; discriminate H).
  pose proof (released_retry_keeps_others exampleOptions lowDraws st
                (firstRetry lowDraws) (secondRetry lowDraws)
                Hreach Hp Hq Hneq) as [H1 H2].
  split; [exact Hreach|]. split; [exact Hneq|]. split; [exact H1|exact H2].
Defined.

(** *** Timers and releases *)

Lemma step_released opts random st ev :
  wellFormed st ->
  releasedTimers (snd (step opts random st ev)) = [] \/
  exists t, releasedTimers (snd (step opts random st ev)) = [t] /\
            isPending t st /\
            spent t (fst (step opts random st ev)).
Proof.
  intros Hwf. destruct ev as [op|res|t]; simpl.
  - left. reflexivity.
  - left. destruct (onResult_cases opts random st res)
      as [[-> _]|[[-> _]|[-> _]]]; reflexivity.
  - destruct (find (fun p => (timer p =? t)%nat) (pending st)) as [p|] eqn:E.
    + right. apply find_some in E. destruct E as [Hp Ht].
      apply Nat.eqb_eq in Ht. subst t.
      destruct (elapsed_is_spent st p Hwf Hp) as [Hfire Hspent].
      exists (timer p). rewrite Hfire in *. simpl.
      split; [reflexivity|]. split; [|exact Hspent].
      now apply in_map.
    + left. unfold onTimer. now rewrite E.
Qed.

Lemma released_are_spent opts random evs t :
  In t (releasedTimers (snd (run opts random initialState evs))) ->
  spent t (fst (run opts random initialState evs)).
Proof.
  revert t. induction evs as [|ev evs IH] using rev_ind; intros t;
    [simpl; tauto|].
  rewrite run_app.
  pose proof (run_wf opts random initialState evs initialState_wf) as Hwf.
  destruct (run opts random initialState evs) as [st1 a1].
  simpl in IH, Hwf. rewrite run_cons. cbn [run fst snd].
  rewrite app_nil_r, releasedTimers_app. intros Hin.
  apply in_app_or in Hin. destruct Hin as [Hin|Hin].
  - apply step_spent. now apply IH.
  - destruct (step_released opts random st1 ev Hwf)
      as [E|[t' [E [_ Hspent]]]]; rewrite E in Hin; simpl in Hin.
    + contradiction.
    + destruct Hin as [<-|[]]. exact Hspent.
Qed.

(** X7.  A retry is handed to [forward] at most once: in a run from the
    initial state no timer releases twice, however often it is said to
    fire. *)
Theorem retry_is_released_at_most_once :
  forall opts random evs,
    NoDup (releasedTimers (snd (run opts random initialState evs))).
Proof.
  intros opts random evs.
  induction evs as [|ev evs IH] using rev_ind; [constructor|].
  rewrite run_app.
  pose proof (run_wf opts random initialState evs initialState_wf) as Hwf.
  pose proof (released_are_spent opts random evs) as Hspent.
  destruct (run opts random initialState evs) as [st1 a1].
  simpl in IH, Hwf, Hspent. rewrite run_cons. cbn [run snd].
  rewrite app_nil_r, releasedTimers_app.
  destruct (step_released opts random st1 ev Hwf)
    as [E|[t [E [Hpend _]]]]; rewrite E.
  - now rewrite app_nil_r.
  - apply NoDup_app; [exact IH|repeat constructor; intros []|].
    intros t' Hin [<-|[]]. destruct (Hspent t Hin) as [Hnp _].
    exact (Hnp Hpend).
Qed.

Lemma pending_timed opts random evs p :
  In p (pending (fst (run opts random initialState evs))) ->
  timed (snd (run opts random initialState evs)) p.
Proof.
  revert p. induction evs as [|ev evs IH] using rev_ind; intros p;
    [simpl; tauto|].
  rewrite run_app.
  destruct (run opts random initialState evs) as [st1 a1].
  simpl in IH. rewrite run_cons. cbn [run fst snd]. rewrite app_nil_r.
  intros Hp. apply pending_after_step in Hp.
  destruct Hp as [Hold | [res [-> [Hstep ->]]]].
  - destruct (IH p Hold) as [Hin Hd]. split; [|exact Hd].
    apply in_or_app. now left.
  - rewrite Hstep. split; [|reflexivity].
    apply in_or_app. right. simpl. right. left. reflexivity.
Qed.

(** X8.  When a retry is handed to [forward], its timer was started in an
    earlier step, and the [retryDelay] the operation carries is the delay
    that timer was started with. *)
Theorem released_retry_waited_its_delay :
  forall opts random evs ev t op',
    In (Forward (fromRetry t) op')
       (snd (step opts random
                  (fst (run opts random initialState evs)) ev)) ->
    exists d,
      In (SetTimeout t d) (snd (run opts random initialState evs)) /\
      retryDelay (context op') = Some d.
Proof.
  intros opts random evs ev t op' Hin.
  apply retry_forward_was_pending in Hin.
  destruct Hin as [p [Hp [<- <-]]].
  destruct (pending_timed opts random evs p Hp) as [Hset Hd].
  exists (wait p). split; assumption.
Qed.

Lemma released_retry_waited_its_delay_witness :
  exists d,
    In (SetTimeout 0 d)
       (snd (run exampleOptions lowDraws initialState oneFailure)) /\
    retryDelay (context (retryOp (firstRetry lowDraws))) = Some d.
Proof.
  apply (released_retry_waited_its_delay exampleOptions lowDraws oneFailure
           (delayElapses 0) 0 (retryOp (firstRetry lowDraws))).
  left. reflexivity.
Defined.

(** *** The delay along successive retries *)

Lemma delayAmount_bounds opts ctx r :
  0 <= r < 1 ->
  0 < baseDelay opts ctx ->
  baseDelay opts ctx <= delayAmount opts ctx r /\
  (baseDelay opts ctx < MAX_DELAY opts -> delayAmount opts ctx r < MAX_DELAY opts) /\
  (MAX_DELAY opts <= baseDelay opts ctx ->
   delayAmount opts ctx r = baseDelay opts ctx).
Proof.
  intros Hr Hpos. rewrite delayAmount_cases.
  destruct (backoffFactor_range r Hr) as [Hlo _].
  set (d := baseDelay opts ctx) in *. set (f := backoffFactor r) in *.
  destruct (Js.ltQ (d * f) (MAX_DELAY opts)) eqn:E.
  - apply ltQ_true in E. split; [nra|]. split; [auto|].
    intros Hge. exfalso. nra.
  - split; [apply Qle_refl|]. split; auto.
Qed.

Lemma baseDelay_after_retry opts op r :
  0 <= r < 1 ->
  baseDelay opts (context (retryOperation opts op r)) =
  delayAmount opts (context op) r.
Proof.
  intros Hr. unfold baseDelay at 1. simpl retryDelay.
  now apply orQ_of_truthy, delayAmount_truthy.
Qed.

Lemma retryChain_snoc opts rs r op :
  retryChain opts (rs ++ [r]) op =
  retryOperation opts (retryChain opts rs op) r.
Proof. unfold retryChain. now rewrite fold_left_app. Qed.

Lemma retryChain_base_in_bounds opts rs op :
  0 < MIN_DELAY opts ->
  MIN_DELAY opts < MAX_DELAY opts ->
  Forall (fun r => 0 <= r < 1) rs ->
  retryDelay (context op) = None ->
  MIN_DELAY opts <= baseDelay opts (context (retryChain opts rs op)) /\
  baseDelay opts (context (retryChain opts rs op)) < MAX_DELAY opts.
Proof.
  intros Hpos Hlt Hrs Hfresh.
  induction rs as [|r rs IH] using rev_ind.
  - simpl. unfold baseDelay. rewrite Hfresh. simpl.
    split; [apply Qle_refl|exact Hlt].
  - apply Forall_app in Hrs. destruct Hrs as [Hrs Hr].
    inversion Hr as [|? ? Hr0 _]; subst.
    destruct (IH Hrs) as [Hlo Hhi].
    rewrite retryChain_snoc, baseDelay_after_retry by exact Hr0.
    destruct (delayAmount_bounds opts (context (retryChain opts rs op)) r Hr0)
      as [Hge [Hcap _]]; [lra|].
    split; [lra|auto].
Qed.

(** X9.  With [0 < MIN_DELAY < MAX_DELAY] and [Math.random] in [[0, 1)],
    the delays of an operation that was issued without [retryDelay] never
    shrink and never reach [MAX_DELAY]: after any number of retry cycles,
    the next cycle writes a [retryDelay] that is at least the delay of the
    cycle before, at least [MIN_DELAY], and below [MAX_DELAY]. *)
Theorem retry_delay_grows_within_bounds :
  forall opts rs r op,
    0 < MIN_DELAY opts ->
    MIN_DELAY opts < MAX_DELAY opts ->
    Forall (fun r => 0 <= r < 1) rs ->
    0 <= r < 1 ->
    retryDelay (context op) = None ->
    let before := retryChain opts rs op in
    exists d,
      retryDelay (context (retryOperation opts before r)) = Some d /\
      baseDelay opts (context before) <= d /\
      MIN_DELAY opts <= d /\
      d < MAX_DELAY opts.
Proof.
  intros opts rs r op Hpos Hlt Hrs Hr Hfresh before.
  destruct (retryChain_base_in_bounds opts rs op Hpos Hlt Hrs Hfresh)
    as [Hlo Hhi]. fold before in Hlo, Hhi.
  destruct (delayAmount_bounds opts (context before) r Hr)
    as [Hge [Hcap _]]; [lra|].
  exists (delayAmount opts (context before) r).
  split; [reflexivity|]. split; [exact Hge|]. split; [lra|auto].
Qed.

Lemma retry_delay_grows_within_bounds_witness :
  exists d,
    retryDelay
      (context (retryOperation exampleOptions
                  (retryChain exampleOptions [1 # 2; 0] (freshQuery 1))
                  (1 # 4))) = Some d /\
    baseDelay exampleOptions
      (context (retryChain exampleOptions [1 # 2; 0] (freshQuery 1))) <= d /\
    MIN_DELAY exampleOptions <= d /\
    d < MAX_DELAY exampleOptions.
Proof.
  apply (retry_delay_grows_within_bounds exampleOptions [1 # 2; 0] (1 # 4)
           (freshQuery 1)).
  - reflexivity.
  - reflexivity.
  - repeat constructor; discriminate.
  - split; [discriminate|reflexivity].
  - reflexivity.
Defined.

(** X10.  When [MIN_DELAY] is positive and not below [MAX_DELAY], the
    delay is never scaled: every retry cycle of an operation that was
    issued without [retryDelay] waits exactly [MIN_DELAY]. *)
Theorem retry_delay_is_constant_at_the_cap :
  forall opts rs r op,
    0 < MIN_DELAY opts ->
    MAX_DELAY opts <= MIN_DELAY opts ->
    Forall (fun r => 0 <= r < 1) rs ->
    0 <= r < 1 ->
    retryDelay (context op) = None ->
    delayAmount opts (context (retryChain opts rs op)) r = MIN_DELAY opts /\
    retryDelay (context (retryOperation opts (retryChain opts rs op) r)) =
      Some (MIN_DELAY opts).
Proof.
  intros opts rs r op Hpos Hcap Hrs Hr Hfresh.
  assert (Hbase : baseDelay opts (context (retryChain opts rs op)) =
                  MIN_DELAY opts).
  { induction rs as [|r0 rs IH] using rev_ind.
    - simpl. unfold baseDelay. now rewrite Hfresh.
    - apply Forall_app in Hrs. destruct Hrs as [Hrs Hr0].
      inversion Hr0 as [|? ? Hr1 _]; subst.
      specialize (IH Hrs).
      rewrite retryChain_snoc, baseDelay_after_retry by exact Hr1.
      destruct (delayAmount_bounds opts (context (retryChain opts rs op))
                                   r0 Hr1) as [_ [_ Heq]];
        [rewrite IH; exact Hpos|].
      rewrite Heq; [exact IH|]. now rewrite IH. }
  assert (Hd : delayAmount opts (context (retryChain opts rs op)) r =
               MIN_DELAY opts).
  { destruct (delayAmount_bounds opts (context (retryChain opts rs op)) r Hr)
      as [_ [_ Heq]]; [rewrite Hbase; exact Hpos|].
    rewrite Heq; [exact Hbase|]. now rewrite Hbase. }
  split; [exact Hd|]. simpl. now rewrite Hd.
Qed.

Lemma retry_delay_is_constant_at_the_cap_witness :
  delayAmount cappedOptions
    (context (retryChain cappedOptions [1 # 2; 0] (freshQuery 1))) (1 # 4) =
    2000 /\
  retryDelay
    (context (retryOperation cappedOptions
                (retryChain cappedOptions [1 # 2; 0] (freshQuery 1))
                (1 # 4))) = Some 2000.
Proof.
  apply (retry_delay_is_constant_at_the_cap cappedOptions [1 # 2; 0] (1 # 4)
           (freshQuery 1)).
  - reflexivity.
  - discriminate.
  - repeat constructor; discriminate.
  - split; [discriminate|reflexivity].
  - reflexivity.
Defined.

(** *** Counting attempts *)

Lemma attempts_retryChain opts rs op :
  (0 <= attempts op)%Z ->
  attempts (retryChain opts rs op) = (attempts op + Z.of_nat (List.length rs))%Z.
Proof.
  intros H0. induction rs as [|r rs IH] using rev_ind.
  - simpl. lia.
  - rewrite retryChain_snoc, attempts_retryOperation by lia.
    rewrite IH, List.length_app. simpl. lia.
Qed.

(** X11.  An operation whose failures the predicate accepts is retried as
    long as it fails and attempts are left, and no longer: starting from a
    count of at least [0], the failure that follows [n] retry cycles is
    withheld for another retry exactly when [count + n < MAX_ATTEMPTS - 1],
    and is emitted otherwise; after [n] cycles the operation carries the
    count raised by [n]. *)
Theorem failure_after_retries_is_withheld_iff :
  forall opts rs op res e,
    (0 <= attempts op)%Z ->
    operation res = retryChain opts rs op ->
    error res = Some e ->
    retryIf opts e = true ->
    attempts (operation res) = (attempts op + Z.of_nat (List.length rs))%Z /\
    (withheld opts res = true <->
     (attempts op + Z.of_nat (List.length rs) < MAX_ATTEMPTS opts - 1)%Z) /\
    (forall random st,
        In (Emit res) (snd (step opts random st (resultArrives res))) <->
        (attempts op + Z.of_nat (List.length rs) >= MAX_ATTEMPTS opts - 1)%Z).
Proof.
  intros opts rs op res e H0 Hop Herr Hif.
  assert (Hcount : attempts (operation res) =
                   (attempts op + Z.of_nat (List.length rs))%Z)
    by (rewrite Hop; now apply attempts_retryChain).
  assert (Hw : withheld opts res = true <->
               (attempts op + Z.of_nat (List.length rs) < MAX_ATTEMPTS opts - 1)%Z).
  { unfold withheld, maxNumberAttemptsExceeded. rewrite Herr, Hif. simpl.
    fold (attempts (operation res)). rewrite Hcount, negb_true_iff.
    destruct (Z.geb_spec (attempts op + Z.of_nat (List.length rs))
                         (MAX_ATTEMPTS opts - 1)); split;
      intros; try reflexivity; try discriminate; lia. }
  split; [exact Hcount|]. split; [exact Hw|].
  intros random st. simpl. rewrite onResult_verdict.
  destruct (withheld opts res) eqn:E.
  - split.
    + simpl. intros [H|[H|[]]]; discriminate.
    + intros Hge. destruct Hw as [Hw _]. specialize (Hw eq_refl). lia.
  - split.
    + intros _. destruct (Z.lt_ge_cases (attempts op + Z.of_nat (List.length rs))
                                        (MAX_ATTEMPTS opts - 1)) as [Hlt|Hge];
        [|lia].
      apply Hw in Hlt. congruence.
    + intros _. apply in_or_app. right. left. reflexivity.
Qed.

Lemma failure_after_retries_is_withheld_iff_witness :
  attempts (retryChain exampleOptions [0; 0] (freshQuery 1)) = 2%Z /\
  In (Emit (networkFailure (retryChain exampleOptions [0; 0] (freshQuery 1))))
     (snd (step exampleOptions lowDraws initialState
                (resultArrives
                   (networkFailure
                      (retryChain exampleOptions [0; 0] (freshQuery 1)))))).
Proof.
  assert (H0 : (0 <= attempts (freshQuery 1))%Z) by discriminate.
  pose proof (failure_after_retries_is_withheld_iff exampleOptions [0; 0]
                (freshQuery 1)
                (networkFailure
                   (retryChain exampleOptions [0; 0] (freshQuery 1)))
                {| networkError := Some "Failed to fetch"%string;
                   graphQLErrors := [] |}
                H0 eq_refl eq_refl eq_refl) as [H1 [_ H3]].
  split; [exact H1|].
  apply (H3 lowDraws initialState). discriminate.
Defined.

(** *** Runs in which nothing is retried *)

Lemma quiet_run opts random st evs :
  pending st = [] ->
  (forall res, In res (pushed evs) -> withheld opts res = false) ->
  quiet (fst (run opts random st evs)) (snd (run opts random st evs)) /\
  emitted (snd (run opts random st evs)) = pushed evs.
Proof.
  revert st. induction evs as [|ev evs IH]; intros st Hst Hall.
  - simpl. repeat split; auto.
  - assert (Hrest : forall res, In res (pushed evs) -> withheld opts res = false).
    { intros res Hin. apply Hall. change (ev :: evs) with ([ev] ++ evs).
      unfold pushed. rewrite flat_map_app. apply in_or_app. now right. }
    assert (Hstep : pending (fst (step opts random st ev)) = [] /\
                    releasedTimers (snd (step opts random st ev)) = [] /\
                    (forall t d, ~ In (SetTimeout t d)
                                      (snd (step opts random st ev))) /\
                    emitted (snd (step opts random st ev)) = pushed [ev]).
    { destruct ev as [op|res|t]; simpl.
      - rewrite Hst. simpl. repeat split; auto.
        intros t d [H|[]]. discriminate.
      - rewrite onResult_verdict.
        rewrite (Hall res) by (simpl; now left). simpl.
        split; [exact Hst|]. split; [|split].
        + unfold releasedTimers. rewrite flat_map_app. simpl.
          rewrite app_nil_r. induction (diagnosticOf opts res); auto.
        + intros t d Hin. apply in_app_or in Hin.
          destruct Hin as [Hin|[Hin|[]]]; [|discriminate].
          apply in_map_iff in Hin. destruct Hin as [x [Hx _]]. discriminate.
        + now rewrite emitted_app, emitted_map_Debug.
      - unfold onTimer. rewrite Hst. simpl. repeat split; auto. }
    destruct Hstep as [Hp1 [Hr1 [Hs1 He1]]].
    destruct (IH (fst (step opts random st ev)) Hp1 Hrest)
      as [[Hp2 [Hr2 Hs2]] He2].
    rewrite run_cons. cbn [fst snd]. split; [split; [|split]|].
    + exact Hp2.
    + now rewrite releasedTimers_app, Hr1, Hr2.
    + intros t d Hin. apply in_app_or in Hin. destruct Hin as [Hin|Hin].
      * exact (Hs1 t d Hin).
      * exact (Hs2 t d Hin).
    + rewrite emitted_app, He1, He2. change (ev :: evs) with ([ev] ++ evs).
      unfold pushed. now rewrite (flat_map_app _ [ev] evs).
Qed.

(** X12.  While no pushed result is withheld (none fails, or the predicate
    rejects the errors, or no attempt is left), the exchange adds nothing
    of its own: from the initial state every result is emitted, in order,
    no timer is started, nothing is pending and [forward] is given no
    retry. *)
Theorem nothing_retried_is_transparent :
  forall opts random evs,
    (forall res, In res (pushed evs) -> withheld opts res = false) ->
    emitted (snd (run opts random initialState evs)) = pushed evs /\
    quiet (fst (run opts random initialState evs))
          (snd (run opts random initialState evs)).
Proof.
  intros opts random evs Hall.
  destruct (quiet_run opts random initialState evs eq_refl Hall) as [Hq He].
  split; assumption.
Qed.

(** X13.  Options that allow one attempt only ([MAX_ATTEMPTS <= 1]) switch
    retrying off: for operations whose [retryCount] is not negative, every
    result, failures included, is emitted in order and no timer is ever
    started. *)
Theorem single_attempt_never_retries :
  forall opts random evs,
    (MAX_ATTEMPTS opts <= 1)%Z ->
    (forall res, In res (pushed evs) -> (0 <= attempts (operation res))%Z) ->
    emitted (snd (run opts random initialState evs)) = pushed evs /\
    quiet (fst (run opts random initialState evs))
          (snd (run opts random initialState evs)).
Proof.
  intros opts random evs Hmax Hnonneg.
  assert (Hall : forall res, In res (pushed evs) -> withheld opts res = false).
  { intros res Hin. specialize (Hnonneg res Hin).
    unfold withheld. destruct (error res) as [e|]; [|reflexivity].
    unfold maxNumberAttemptsExceeded. fold (attempts (operation res)).
    destruct (Z.geb_spec (attempts (operation res)) (MAX_ATTEMPTS opts - 1));
      [|lia].
    apply andb_false_r. }
  destruct (quiet_run opts random initialState evs eq_refl Hall) as [Hq He].
  split; assumption.
Qed.

Lemma nothing_retried_is_transparent_witness :
  let evs := [opArrives (freshQuery 1);
              resultArrives (graphQLFailure (freshQuery 1));
              opArrives (freshQuery 2);
              resultArrives (success (freshQuery 2))] in
  emitted (snd (run defaultOptions lowDraws initialState evs)) =
    [graphQLFailure (freshQuery 1); success (freshQuery 2)] /\
  quiet (fst (run defaultOptions lowDraws initialState evs))
        (snd (run defaultOptions lowDraws initialState evs)).
Proof.
  intros evs.
  apply (nothing_retried_is_transparent defaultOptions lowDraws evs).
  intros res [<-|[<-|[]]]; reflexivity.
Defined.

Lemma single_attempt_never_retries_witness :
  let evs := [opArrives (freshQuery 1);
              resultArrives (networkFailure (freshQuery 1))] in
  emitted (snd (run singleAttemptOptions lowDraws initialState evs)) =
    [networkFailure (freshQuery 1)] /\
  quiet (fst (run singleAttemptOptions lowDraws initialState evs))
        (snd (run singleAttemptOptions lowDraws initialState evs)).
Proof.
  intros evs.
  apply (single_attempt_never_retries singleAttemptOptions lowDraws evs).
  - discriminate.
  - intros res [<-|[]]. discriminate.
Defined.

(** *** Where retries come from *)

Lemma startedTimers_app a b :
  startedTimers (a ++ b) = startedTimers a ++ startedTimers b.
Proof. apply flat_map_app. Qed.

Lemma filter_removes_found (l : list Pending) (t : nat) (p : Pending) :
  find (fun q => (timer q =? t)%nat) l = Some p ->
  (List.length (filter (fun q => negb (timer q =? t)%nat) l) < List.length l)%nat.
Proof.
  induction l as [|x l IH]; simpl; [discriminate|].
  destruct (timer x =? t)%nat; simpl.
  - intros _. pose proof (filter_length_le (fun q => negb (timer q =? t)%nat) l).
    lia.
  - intros H. specialize (IH H). lia.
Qed.

Lemma step_accounts opts random st ev :
  let st1 := fst (step opts random st ev) in
  let acts := snd (step opts random st ev) in
  startedTimers acts = (if match ev with
                           | resultArrives res => withheld opts res
                           | _ => false
                           end then [nextTimer st] else []) /\
  (List.length (releasedTimers acts) + List.length (pending st1) <=
   List.length (pending st) + List.length (startedTimers acts))%nat.
Proof.
  destruct ev as [op|res|t]; simpl.
  - split; [reflexivity|].
    pose proof (filter_length_le
                  (fun p => negb (supersedes (watchedKey p) op)) (pending st)).
    lia.
  - rewrite onResult_verdict. destruct (withheld opts res); simpl.
    + split; [reflexivity|]. rewrite length_app. simpl. lia.
    + assert (Hs : startedTimers (map Debug (diagnosticOf opts res) ++
                                  [Emit res]) = [])
        by (rewrite startedTimers_app; simpl; rewrite app_nil_r;
            induction (diagnosticOf opts res); auto).
      assert (Hr : releasedTimers (map Debug (diagnosticOf opts res) ++
                                   [Emit res]) = [])
        by (rewrite releasedTimers_app; simpl; rewrite app_nil_r;
            induction (diagnosticOf opts res); auto).
      rewrite Hs, Hr. simpl. split; [reflexivity|lia].
  - unfold onTimer.
    destruct (find (fun p => (timer p =? t)%nat) (pending st)) as [p|] eqn:E;
      simpl; [|split; [reflexivity|lia]].
    split; [reflexivity|].
    pose proof (filter_removes_found (pending st) t p E). lia.
Qed.

(** X14.  The exchange starts one timer for each result it withholds and
    for nothing else, and it never fabricates a retry: in a run from the
    initial state, the retries handed to [forward] and those still pending
    together never outnumber the withheld results. *)
Theorem retries_never_outnumber_withheld_results :
  forall opts random evs,
    let st := fst (run opts random initialState evs) in
    let acts := snd (run opts random initialState evs) in
    List.length (startedTimers acts) =
      List.length (filter (withheld opts) (pushed evs)) /\
    (List.length (releasedTimers acts) + List.length (pending st) <=
     List.length (filter (withheld opts) (pushed evs)))%nat.
Proof.
  intros opts random evs.
  induction evs as [|ev evs IH] using rev_ind; [simpl; split; lia|].
  rewrite run_app.
  destruct (run opts random initialState evs) as [st1 a1].
  simpl in IH. destruct IH as [IH1 IH2].
  rewrite run_cons. cbn [run fst snd]. rewrite app_nil_r.
  destruct (step_accounts opts random st1 ev) as [Hs Hle].
  unfold pushed. rewrite flat_map_app, filter_app, length_app.
  fold (pushed evs). fold (pushed [ev]).
  rewrite startedTimers_app, releasedTimers_app, !length_app, IH1.
  assert (Hev : List.length (startedTimers (snd (step opts random st1 ev))) =
                List.length (filter (withheld opts) (pushed [ev]))).
  { rewrite Hs. destruct ev as [op|res|t]; simpl; try reflexivity.
    now destruct (withheld opts res). }
  split; lia.
Qed.

Lemma pending_stemsFrom opts random evs p :
  In p (pending (fst (run opts random initialState evs))) ->
  stemsFrom opts (pushed evs) p.
Proof.
  revert p. induction evs as [|ev evs IH] using rev_ind; intros p;
    [simpl; tauto|].
  rewrite run_app.
  destruct (run opts random initialState evs) as [st1 a1].
  simpl in IH. rewrite run_cons. cbn [run fst snd].
  unfold pushed. rewrite flat_map_app. fold (pushed evs). fold (pushed [ev]).
  intros Hp. apply pending_after_step in Hp.
  destruct Hp as [Hold | [res [-> [Hstep ->]]]].
  - destruct (IH p Hold) as [res [r [Hin H]]].
    exists res, r. split; [|exact H]. apply in_or_app. now left.
  - exists res, (random (draws st1)).
    split; [apply in_or_app; right; left; reflexivity|].
    split; [|reflexivity].
    simpl in Hstep. rewrite onResult_verdict in Hstep.
    destruct (withheld opts res); [reflexivity|].
    exfalso. unfold nextRetryOperation in Hstep.
    injection Hstep as _ Hacts.
    destruct (diagnosticOf opts res) as [|x [|y l]]; discriminate.
Qed.

(** X15.  The retry path retries only what failed: every operation it
    hands to [forward] stems from a result the executor pushed earlier and
    the filter withheld, and it is that result's operation, same key,
    kind, payload and other context entries, with the retry metadata of
    one more cycle. *)
Theorem released_retry_stems_from_withheld_result :
  forall opts random evs ev t op',
    In (Forward (fromRetry t) op')
       (snd (step opts random
                  (fst (run opts random initialState evs)) ev)) ->
    exists res r,
      In res (pushed evs) /\
      withheld opts res = true /\
      op' = retryOperation opts (operation res) r /\
      key op' = key (operation res) /\
      operationName op' = operationName (operation res) /\
      payload op' = payload (operation res) /\
      meta (context op') = meta (context (operation res)) /\
      retryCount (context op') = Some (attempts (operation res) + 1)%Z.
Proof.
  intros opts random evs ev t op' Hin.
  apply retry_forward_was_pending in Hin.
  destruct Hin as [p [Hp [_ <-]]].
  destruct (pending_stemsFrom opts random evs p Hp) as [res [r [Hin [Hw ->]]]].
  exists res, r. repeat split; assumption.
Qed.

Lemma released_retry_stems_from_withheld_result_witness :
  exists res r,
    In res (pushed oneFailure) /\
    withheld exampleOptions res = true /\
    retryOp (firstRetry lowDraws) =
      retryOperation exampleOptions (operation res) r /\
    key (retryOp (firstRetry lowDraws)) = key (operation res) /\
    operationName (retryOp (firstRetry lowDraws)) =
      operationName (operation res) /\
    payload (retryOp (firstRetry lowDraws)) = payload (operation res) /\
    meta (context (retryOp (firstRetry lowDraws))) =
      meta (context (operation res)) /\
    retryCount (context (retryOp (firstRetry lowDraws))) =
      Some (attempts (operation res) + 1)%Z.
Proof.
  apply (released_retry_stems_from_withheld_result exampleOptions lowDraws
           oneFailure (delayElapses 0) 0%nat (retryOp (firstRetry lowDraws))).
  left. reflexivity.
Defined.
